(** * Rotator controller of gpredict: a shallow embedding of gtk-rot-ctrl.c

    The C code works on [gdouble] values.  They are modelled as exact
    rationals ([Q]): comparisons, additions, subtractions and halvings are
    the ones of the source, rounding and the special values (NaN, infinities)
    are outside the model.  Equality of such values is [Qeq] (written [==])
    unless a value is copied unchanged, in which case it is Leibniz equality.

    [guint] values are [N], [gboolean] is [bool], a pointer that may be NULL
    is an [option], a [GSList] is a [list]. *)

From Stdlib Require Import QArith Qabs Qround ZArith NArith List Bool Lia Lqa.
From Stdlib Require Import String Ascii.
Import ListNotations.

Local Open Scope Q_scope.

(** ** Comparisons and macros of C and glib *)

(** [a < b] on doubles, as a boolean. *)
Definition Qlt_bool (a b : Q) : bool := negb (Qle_bool b a).

(** [fabs] and [fmax] of math.h. *)
Definition fabs (x : Q) : Q := Qabs x.
Definition fmax (a b : Q) : Q := if Qlt_bool a b then b else a.

(** glib's [CLAMP (x, low, high)]:
    [(((x) > (high)) ? (high) : (((x) < (low)) ? (low) : (x)))]. *)
Definition CLAMP (x low high : Q) : Q :=
  if Qlt_bool high x then high else if Qlt_bool x low then low else x.

(** Modelled from the spec: [secday], a constant of sgp4sdp4.h, which is not
    among the sources.  Time is counted in days (the specification reads the
    step 1/72 as 20 minutes), [delay / 1000 / secday] turns milliseconds
    into days: [secday] is the number of seconds of a day. *)
Definition secday : Q := 86400.

(** ** AngleMath *)

(** [gtk_rot_ctrl_make_pos]: [while (angle < 0) angle += 360;] *)
Fixpoint add360_loop (fuel : nat) (lo x : Q) : Q :=
  match fuel with
  | O => x
  | S fuel' => if Qlt_bool x lo then add360_loop fuel' lo (x + 360) else x
  end.

(** [while (x > hi) x -= 360;] *)
Fixpoint sub360_loop (fuel : nat) (hi x : Q) : Q :=
  match fuel with
  | O => x
  | S fuel' => if Qlt_bool hi x then sub360_loop fuel' hi (x - 360) else x
  end.

(** A natural number as a double. *)
Definition qn (n : nat) : Q := inject_Z (Z.of_nat n).

(** Number of whole turns that cover a distance [d]: enough iterations for a
    loop that closes a gap of [d] by steps of 360. *)
Definition turns (d : Q) : nat := Z.to_nat (Qceiling (d / 360)).

(** The two loops, run for the number of iterations that exact arithmetic
    needs.  On doubles the loops of the source do the same as long as a step
    of 360 moves the value, which holds for the angles of a pass, of a
    rotator limit or of a knob.  For a magnitude of [2 ^ 62] and more,
    [x + 360] rounds to [x] and the loop of the source does not exit; a
    negative value too small to move 360 is raised to 360 itself.  These
    cases are outside the model: nothing is stated below about what
    [gtk_rot_ctrl_make_pos] and [gtk_rot_ctrl_prep_dsp] make of the position
    the device reports, which the code does not check. *)
Definition raise_to (lo x : Q) : Q := add360_loop (turns (lo - x)) lo x.
Definition lower_to (hi x : Q) : Q := sub360_loop (turns (x - hi)) hi x.

Definition gtk_rot_ctrl_make_pos (angle : Q) : Q := raise_to 0 angle.

(** [gtk_rot_ctrl_smooth] *)
Definition gtk_rot_ctrl_smooth (lastAz currAz : Q) : Q :=
  let res := currAz in
  let res := if Qlt_bool (lastAz + 170) currAz then res - 360 else res in
  let res := if Qlt_bool currAz (lastAz - 170) then res + 360 else res in
  res.

(** [gtk_rot_ctrl_ring_absdiff] *)
Definition gtk_rot_ctrl_ring_absdiff (a b : Q) : Q :=
  let diff := fabs (a - b) in
  let diff := if Qlt_bool 180 diff then fabs (diff - 360) else diff in
  let diff := if Qlt_bool diff (-180) then fabs (diff + 360) else diff in
  diff.

(** [is_within_threshold] *)
Definition is_within_threshold (srcaz srcel dstaz dstel threshold : Q) : bool :=
  let diffaz := gtk_rot_ctrl_ring_absdiff srcaz dstaz in
  let diffel := gtk_rot_ctrl_ring_absdiff srcel dstel in
  Qlt_bool ((diffaz * diffaz) + (diffel * diffel)) (threshold * threshold).

(** Modelled from the spec: [rot_az_type_t] of rotor-conf.h, which is not
    among the sources; the wrap modes are 0..360, -180..180 and raw. *)
Inductive rot_az_type_t := ROT_AZ_TYPE_360 | ROT_AZ_TYPE_180 | ROT_AZ_TYPE_RAW.

(** [gtk_rot_ctrl_prep_dsp]: the display projection.  The two output
    parameters are returned as a pair. *)
Definition gtk_rot_ctrl_prep_dsp (srcaz srcel : Q) (dspType : rot_az_type_t)
  : Q * Q :=
  let srcaz :=
    match dspType with
    | ROT_AZ_TYPE_RAW => srcaz
    | ROT_AZ_TYPE_360 => lower_to 360 (raise_to 0 srcaz)
    | ROT_AZ_TYPE_180 => lower_to 180 (raise_to (-180) srcaz)
    end in
  (srcaz, srcel).

(** ** Data model *)

(** Modelled from the spec: [pass_detail_t], [pass_t] and [sat_t] of the
    predictor and [rotor_conf_t], whose headers are not among the sources.
    The fields are the ones the controller reads: a pass holds its AOS and
    LOS times and azimuths and its ordered detail samples, a satellite its
    current azimuth, elevation, AOS and LOS, a configuration the travel
    limits, the azimuth type and the stop position. *)
Record pass_detail_t := mk_detail { detail_time : Q; detail_az : Q; detail_el : Q }.

Record pass_t := mk_pass {
  aos : Q; los : Q; aos_az : Q; los_az : Q;
  details : list pass_detail_t }.

Record sat_t := mk_sat { az : Q; el : Q; sat_aos : Q; sat_los : Q }.

Record rotor_conf_t := mk_conf {
  aztype : rot_az_type_t;
  minaz : Q; maxaz : Q; minel : Q; maxel : Q;
  azstoppos : Q }.

(** [ctrl->client]: the record shared with the rotctld client thread. *)
Record client_t := mk_client {
  azi_in : Q; ele_in : Q;
  azi_out : Q; ele_out : Q;
  new_trg : bool; io_error : bool; running : bool }.

(** [GtkRotCtrl]: the fields of the widget that the control code uses.
    [ctrl_t] is [ctrl->t]. *)
Record GtkRotCtrl := mk_ctrl {
  conf : option rotor_conf_t;
  ctrl_t : Q;
  target : option sat_t;
  pass : option pass_t;
  flipped : bool;
  delay : N;
  threshold : Q;
  tracking : bool;
  engaged : bool;
  monitor : bool;
  lastTrgAz : Q; lastTrgEl : Q; lastTrgSet : bool;
  client : client_t }.

(** A C function that dereferences a NULL pointer, or whose loop does not
    exit, has no result: such functions return an [option]. *)
Definition bind {A B} (x : option A) (k : A -> option B) : option B :=
  match x with Some a => k a | None => None end.

Notation "x <- e ;; k" := (bind e (fun x => k))
  (at level 61, e at next level, right associativity).
Notation "' p <- e ;; k" := (bind e (fun p => k))
  (at level 61, p pattern, e at next level, right associativity).

(** ** PassTracker: [is_flipped_pass] *)

(** The wrap range after the stop offset has been added. *)
Definition flip_range (type : rot_az_type_t) (azstoppos : Q) : Q * Q :=
  let '(min_az, max_az) :=
    match type with
    | ROT_AZ_TYPE_360 => (0, 360)
    | ROT_AZ_TYPE_180 => (-180, 180)
    | ROT_AZ_TYPE_RAW => (0, 0)
    end in
  let offset := azstoppos - min_az in
  (min_az + offset, max_az + offset).

(** [while (x > max_az) x -= 360;  while (x < min_az) x += 360;] *)
Definition settable_az (range : Q * Q) (x : Q) : Q :=
  raise_to (fst range) (lower_to (snd range) x).

(** One azimuth of the walk: unwrap it, compare it with the previous one. *)
Definition flip_step (range : Q * Q) (st : Q * bool) (x : Q) : Q * bool :=
  let '(last_az, retval) := st in
  let caz := settable_az range x in
  (caz, if Qlt_bool 180 (fabs (caz - last_az)) then true else retval).

(** The loop [for (i = 1; i < num - 1; i++)] over [g_slist_nth_data]. *)
Definition flip_scan (range : Q * Q) (ds : list pass_detail_t) (num : nat)
    (st : Q * bool) : Q * bool :=
  fold_left
    (fun st i =>
       match nth_error ds i with
       | Some detail => flip_step range st (detail_az detail)
       | None => st
       end)
    (seq 1 (num - 1 - 1)) st.

Definition is_flipped_pass (pass : pass_t) (type : rot_az_type_t)
    (azstoppos : Q) : bool :=
  let range := flip_range type azstoppos in
  let num := List.length (details pass) in
  let st := (settable_az range (aos_az pass), false) in
  let st := if (1 <? num)%nat then flip_scan range (details pass) num st else st in
  snd (flip_step range st (los_az pass)).

(** [set_flipped_pass] *)
Definition set_flipped_pass (ctrl : GtkRotCtrl) : GtkRotCtrl :=
  match conf ctrl, pass ctrl with
  | Some c, Some p =>
      mk_ctrl (conf ctrl) (ctrl_t ctrl) (target ctrl) (pass ctrl)
        (is_flipped_pass p (aztype c) (azstoppos c))
        (delay ctrl) (threshold ctrl) (tracking ctrl) (engaged ctrl)
        (monitor ctrl) (lastTrgAz ctrl) (lastTrgEl ctrl) (lastTrgSet ctrl)
        (client ctrl)
  | _, _ => ctrl
  end.

(** ** Path point: [gtk_rot_ctrl_get_path] *)

(** [(ctrl->flipped) && (ctrl->conf->maxel >= 180.0)]: the configuration is
    read only when the pass is flipped. *)
Definition flip_enabled (ctrl : GtkRotCtrl) : option bool :=
  if flipped ctrl
  then c <- conf ctrl ;; Some (Qle_bool 180 (maxel c))
  else Some false.

(** The flip transform on an azimuth. *)
Definition flip_az (a : Q) : Q := if Qlt_bool 180 a then a - 180 else a + 180.

(** [pthaz] and [pthel] are in-out parameters: the values they hold on entry
    are the arguments, the values they hold on return are in the result. *)
Definition gtk_rot_ctrl_get_path (ctrl : GtkRotCtrl) (pthaz pthel : Q)
  : option (bool * Q * Q) :=
  tgt <- target ctrl ;;
  let '(gotPath, pthaz, pthel) :=
    if Qlt_bool (el tgt) 0 then
      match pass ctrl with
      | Some p =>
          if Qlt_bool (ctrl_t ctrl) (aos p) then (true, aos_az p, 0)
          else if Qlt_bool (los p) (ctrl_t ctrl) then (true, los_az p, 0)
          else (false, pthaz, pthel)
      | None => (false, pthaz, pthel)
      end
    else (true, az tgt, el tgt) in
  flip <- flip_enabled ctrl ;;
  Some (if flip
        then (gotPath, flip_az pthaz, 180 - pthel)
        else (gotPath, pthaz, pthel)).

(** [gtk_rot_ctrl_smooth_az] *)
Definition gtk_rot_ctrl_smooth_az (ctrl : GtkRotCtrl) (currAz : Q) : Q :=
  if lastTrgSet ctrl then gtk_rot_ctrl_smooth (lastTrgAz ctrl) currAz else currAz.

(** ** PathProfiler: [gtk_rot_ctrl_profile_az] *)

(** The locals [firstAz], [lastaz], [minaz], [maxaz] of the scan. *)
Record profile_t := mk_profile {
  firstAz : bool; lastaz : Q; env_min : Q; env_max : Q }.

Definition profile_init : profile_t := mk_profile true 0 10000 (-10000).

(** The body of the scan for one non-NULL detail. *)
Definition profile_step (st : profile_t) (detail : pass_detail_t) : profile_t :=
  let lastaz := if firstAz st then detail_az detail else lastaz st in
  let smoothaz := gtk_rot_ctrl_smooth lastaz (detail_az detail) in
  let minaz := if Qlt_bool smoothaz (env_min st) then smoothaz else env_min st in
  let maxaz := if Qlt_bool (env_max st) smoothaz then smoothaz else env_max st in
  mk_profile false smoothaz minaz maxaz.

(** [for (int i = 0; i < detailLength; i++)] over [g_slist_nth_data]; a NULL
    element is skipped. *)
Definition profile_scan (ds : list pass_detail_t) : profile_t :=
  fold_left
    (fun st i =>
       match nth_error ds i with
       | Some detail => profile_step st detail
       | None => st
       end)
    (seq 0 (List.length ds)) profile_init.

(** [while (sampleAz < minaz) { minaz -= 360; maxaz -= 360; }] *)
Fixpoint env_down_loop (fuel : nat) (sampleAz : Q) (e : Q * Q) : Q * Q :=
  match fuel with
  | O => e
  | S fuel' =>
      if Qlt_bool sampleAz (fst e)
      then env_down_loop fuel' sampleAz (fst e - 360, snd e - 360)
      else e
  end.

(** [while (sampleAz > maxaz) { minaz += 360; maxaz += 360; }] *)
Fixpoint env_up_loop (fuel : nat) (sampleAz : Q) (e : Q * Q) : Q * Q :=
  match fuel with
  | O => e
  | S fuel' =>
      if Qlt_bool (snd e) sampleAz
      then env_up_loop fuel' sampleAz (fst e + 360, snd e + 360)
      else e
  end.

Definition env_shift (sampleAz : Q) (e : Q * Q) : Q * Q :=
  let e := env_down_loop (turns (fst e - sampleAz)) sampleAz e in
  env_up_loop (turns (sampleAz - snd e)) sampleAz e.

(** The envelope the candidates are tested on. *)
Definition profile_envelope (p : pass_t) (sampleAz : Q) : Q * Q :=
  let st := profile_scan (details p) in
  env_shift sampleAz (env_min st, env_max st).

Definition offsets : list Q := [-360; 0; 360].

(** The body of [for (int i = 0; i < 3; i++)]; the state is
    [(maxstretch, offset)]. *)
Definition profile_pick (c : rotor_conf_t) (e : Q * Q) (st : Q * Q) (off : Q)
  : Q * Q :=
  let low := fst e + off in
  let high := snd e + off in
  if Qlt_bool (minaz c) low && Qlt_bool high (maxaz c) then
    let stretch := fmax (fabs low) (fabs high) in
    if Qlt_bool stretch (fst st) then (stretch, off) else st
  else st.

Definition gtk_rot_ctrl_profile_az (ctrl : GtkRotCtrl) (sampleAz : Q)
  : option Q :=
  match pass ctrl with
  | Some p =>
      c <- conf ctrl ;;
      Some (snd (fold_left (profile_pick c (profile_envelope p sampleAz))
                   offsets (10000, 0)))
  | None => Some 0
  end.

(** ** FutureTargetSearch and the control tick *)

Definition delay_ms (ctrl : GtkRotCtrl) : Q := inject_Z (Z.of_N (delay ctrl)).

(** The step the search starts with. *)
Definition initial_step (ctrl : GtkRotCtrl) : Q :=
  let step_size :=
    match pass ctrl with
    | Some p => los p - ctrl_t ctrl
    | None => 1 / 72
    end in
  let step_size := step_size / 2 in
  if Qlt_bool step_size (delay_ms ctrl / 1000 / secday)
  then delay_ms ctrl / 1000 / secday
  else step_size.

(** The bound of [while (step_size > ...)]. *)
Definition step_limit (ctrl : GtkRotCtrl) : Q :=
  delay_ms ctrl / 1000 / 4 / secday.

(** The locals of the search: the working copy of the satellite,
    [time_delta] and [step_size]. *)
Record search_t := mk_search { sat : sat_t; time_delta : Q; step_size : Q }.

Definition flip_sat (s : sat_t) : sat_t :=
  mk_sat (flip_az (az s)) (180 - el s) (sat_aos s) (sat_los s).

(** Iterations that are enough for halving [step] down to [limit]. *)
Definition search_fuel (step limit : Q) : nat :=
  if Qlt_bool 0 limit then Z.to_nat (Qceiling (step / limit)) else O.

(** The client thread's view of one command exchange on the socket:
    what [send] returned and what [recv] delivered ([None] when it
    returned -1).  [recv] fills the caller's buffer, a local array that is
    not initialised; [beyond] is the text that array holds from its fifth
    byte on when fewer than four bytes were received, bytes that lie after
    the terminator and that the exchange did not write. *)
Record sock_io := mk_io {
  written : Z; received : option string; beyond : string }.

Record tick_env := mk_env { AzSet : Q; ElSet : Q; trylock : bool }.

(** What the tick hands to the widgets: the values set on the knobs, the
    satellite and target markers of the polar plot and the arguments of
    [gtk_rot_ctrl_set_read_rotor]. *)
Record tick_out := mk_out {
  knob_set : option (Q * Q);
  plot_target : Q * Q;
  plot_ctrl : Q * Q;
  read_error : bool; read_gotrot : bool;
  read_rot : Q * Q; read_polrot : Q * Q }.

Definition set_lastTrg (ctrl : GtkRotCtrl) (a e : Q) : GtkRotCtrl :=
  mk_ctrl (conf ctrl) (ctrl_t ctrl) (target ctrl) (pass ctrl) (flipped ctrl)
    (delay ctrl) (threshold ctrl) (tracking ctrl) (engaged ctrl) (monitor ctrl)
    a e true (client ctrl).

Definition set_client (ctrl : GtkRotCtrl) (cl : client_t) : GtkRotCtrl :=
  mk_ctrl (conf ctrl) (ctrl_t ctrl) (target ctrl) (pass ctrl) (flipped ctrl)
    (delay ctrl) (threshold ctrl) (tracking ctrl) (engaged ctrl) (monitor ctrl)
    (lastTrgAz ctrl) (lastTrgEl ctrl) (lastTrgSet ctrl) cl.

Definition is_some {A} (x : option A) : bool :=
  match x with Some _ => true | None => false end.

Section Controller.

(** [predict_calc (sat, ctrl->qth, t)] of the orbit predictor, for the ground
    station of the controller: it updates the satellite record for time [t]. *)
Variable predict_calc : sat_t -> Q -> sat_t.

(** The body of the search loop. *)
Definition search_body (ctrl : GtkRotCtrl) (pthaz pthel : Q) (s : search_t)
  : option search_t :=
  let sat := predict_calc (sat s) (ctrl_t ctrl + time_delta s + step_size s) in
  flip <- flip_enabled ctrl ;;
  let sat := if flip then flip_sat sat else sat in
  let time_delta :=
    if Qle_bool 0 (el sat) && Qle_bool (el sat) 180
       && is_within_threshold pthaz pthel (az sat) (el sat) (threshold ctrl)
    then time_delta s + step_size s
    else time_delta s in
  Some (mk_search sat time_delta (step_size s / 2)).

(** [while (step_size > limit) body]; [None] when the fuel does not reach
    the exit of the loop. *)
Fixpoint search_loop (fuel : nat) (ctrl : GtkRotCtrl) (pthaz pthel : Q)
    (s : search_t) : option search_t :=
  if Qlt_bool (step_limit ctrl) (step_size s) then
    match fuel with
    | O => None
    | S fuel' =>
        s' <- search_body ctrl pthaz pthel s ;;
        search_loop fuel' ctrl pthaz pthel s'
    end
  else Some s.

(** [n] executions of the body. *)
Fixpoint search_iter (n : nat) (ctrl : GtkRotCtrl) (pthaz pthel : Q)
    (s : search_t) : option search_t :=
  match n with
  | O => Some s
  | S n' =>
      s' <- search_body ctrl pthaz pthel s ;;
      search_iter n' ctrl pthaz pthel s'
  end.

Definition search_start (ctrl : GtkRotCtrl) (tgt : sat_t) : search_t :=
  mk_search tgt 0 (initial_step ctrl).

(** [gtk_rot_ctrl_calc_future_target]; the result is [(trgaz, trgel)]. *)
Definition gtk_rot_ctrl_calc_future_target (ctrl : GtkRotCtrl)
    (pthaz pthel : Q) : option (Q * Q) :=
  tgt <- target ctrl ;;
  s <- search_loop (search_fuel (initial_step ctrl) (step_limit ctrl))
         ctrl pthaz pthel (search_start ctrl tgt) ;;
  Some (az (sat s), el (sat s)).

(** The first half of [rot_ctrl_timeout_cb]: the target of this tick.  The
    result is the controller with its smoothing memory updated, [trgaz],
    [trgel], the satellite marker and the values set on the knobs. *)
Definition tick_target (ctrl : GtkRotCtrl) (env : tick_env)
  : option (GtkRotCtrl * Q * Q * (Q * Q) * option (Q * Q)) :=
  if negb (tracking ctrl && is_some (target ctrl)) then
    let pthaz := AzSet env in
    let pthel := ElSet env in
    let trgaz := pthaz in
    let trgel := pthel in
    Some (set_lastTrg ctrl trgaz trgel, trgaz, trgel, (-10, -10), None)
  else
    ' (gotPath, pthaz, pthel) <- gtk_rot_ctrl_get_path ctrl 0 0 ;;
    if gotPath : bool then
      let pthaz := gtk_rot_ctrl_smooth_az ctrl pthaz in
      let '(trgaz, trgel) :=
        if lastTrgSet ctrl then (lastTrgAz ctrl, lastTrgEl ctrl)
        else (pthaz, pthel) in
      ' (trgaz, trgel) <-
        (if negb (is_within_threshold pthaz pthel trgaz trgel (threshold ctrl))
         then
           tgt <- target ctrl ;;
           ' (trgaz, trgel) <-
             (if Qlt_bool (el tgt) 0 then Some (pthaz, pthel)
              else gtk_rot_ctrl_calc_future_target ctrl pthaz pthel) ;;
           Some (gtk_rot_ctrl_smooth_az ctrl trgaz, trgel)
         else Some (trgaz, trgel)) ;;
      let ctrl := set_lastTrg ctrl trgaz trgel in
      off <- gtk_rot_ctrl_profile_az ctrl trgaz ;;
      let trgaz := trgaz + off in
      c <- conf ctrl ;;
      let dsp := gtk_rot_ctrl_prep_dsp trgaz trgel (aztype c) in
      Some (ctrl, trgaz, trgel,
            (gtk_rot_ctrl_make_pos pthaz, gtk_rot_ctrl_make_pos pthel),
            Some dsp)
    else Some (ctrl, 0, 0, (0, 0), None).

(** The critical section of the tick on the shared record. *)
Definition tick_exchange (c : rotor_conf_t) (cl : client_t) (trgaz trgel : Q)
  : client_t :=
  mk_client (azi_in cl) (ele_in cl)
    (CLAMP trgaz (minaz c) (maxaz c))
    (CLAMP trgel (minel c) (maxel c))
    true (io_error cl) (running cl).

(** [rot_ctrl_timeout_cb] *)
Definition rot_ctrl_timeout_cb (ctrl : GtkRotCtrl) (env : tick_env)
  : option (GtkRotCtrl * tick_out) :=
  ' (ctrl1, trgaz, trgel, polsat, knobs) <- tick_target ctrl env ;;
  let poltrg := (gtk_rot_ctrl_make_pos trgaz, gtk_rot_ctrl_make_pos trgel) in
  match (if engaged ctrl then conf ctrl else None) with
  | Some c =>
      if trylock env then
        let cl := client ctrl1 in
        let error := io_error cl in
        let rotaz := azi_in cl in
        let rotel := ele_in cl in
        let polrot :=
          if negb error
          then (gtk_rot_ctrl_make_pos rotaz, gtk_rot_ctrl_make_pos rotel)
          else (-10, -10) in
        Some (set_client ctrl1 (tick_exchange c cl trgaz trgel),
              mk_out knobs polsat poltrg error true (rotaz, rotel) polrot)
      else
        Some (ctrl1, mk_out knobs polsat poltrg false false (0, 0) (-10, -10))
  | None =>
      Some (ctrl1, mk_out knobs polsat poltrg false false (0, 0) (-10, -10))
  end.

End Controller.

(** ** DeviceClient: the rotctld protocol and the client thread *)

Local Open Scope string_scope.

(** The newline the protocol ends its lines with (0x0a). *)
Definition nl : ascii := "010"%char.

(** [rotctld_socket_rw]: FALSE ([None]) when [send] or [recv] returns -1,
    else TRUE with the received bytes in [buffout]. *)
Definition rotctld_socket_rw (io : sock_io) : option string :=
  if (written io =? -1)%Z then None else received io.

(** [strstr (s, "\n")]: the text before the first newline and the text
    after it. *)
Fixpoint split_first_nl (s : string) : option (string * string) :=
  match s with
  | EmptyString => None
  | String c rest =>
      if Ascii.eqb c nl then Some (EmptyString, rest)
      else match split_first_nl rest with
           | Some (tok, rem) => Some (String c tok, rem)
           | None => None
           end
  end.

(** The loop [while (--max_tokens && s)] of glib's [g_strsplit] and the
    remainder it appends. *)
Fixpoint strsplit_from (splits : nat) (remainder : string) : list string :=
  match splits with
  | O => [remainder]
  | S splits' =>
      match split_first_nl remainder with
      | Some (tok, rest) => tok :: strsplit_from splits' rest
      | None => [remainder]
      end
  end.

(** glib's [g_strsplit (s, "\n", max_tokens)] for [max_tokens >= 1]; the
    empty string splits into the empty vector. *)
Definition g_strsplit_nl (s : string) (max_tokens : nat) : list string :=
  match s with
  | EmptyString => []
  | _ => strsplit_from (max_tokens - 1) s
  end.

(** The text [s] without its first [n] bytes. *)
Fixpoint skip (n : nat) (s : string) : string :=
  match n, s with
  | O, _ => s
  | S n', String _ rest => skip n' rest
  | S _, EmptyString => EmptyString
  end.

(** The cast [(gint) x]: truncation towards zero. *)
Definition gint_of_double (x : Q) : Z :=
  if Qlt_bool x 0 then Qceiling x else Qfloor x.

(** The variables of the client thread that live across the phases of its
    loop: [azi], [ele], [new_trg], [io_error]. *)
Record thread_t := mk_thread {
  t_azi : Q; t_ele : Q; t_new_trg : bool; t_io_error : bool }.

Section Protocol.

(** glib's [g_strtod (s, NULL)]. *)
Variable g_strtod : string -> Q.

(** [get_pos]: [az] and [el] are the values the output parameters hold on
    entry; the result is the return code and the values they hold on
    return.  The pointers are those of the thread's own variables, the
    NULL test of the source never fires. *)
Definition get_pos (io : sock_io) (az el : Q) : bool * Q * Q :=
  match rotctld_socket_rw io with
  | Some buffback =>
      if String.prefix "RPRT" buffback then (false, az, el)
      else
        match g_strsplit_nl buffback 3 with
        | v0 :: v1 :: _ => (true, g_strtod v0, g_strtod v1)
        | _ => (false, az, el)
        end
  | None => (false, az, el)
  end.

(** [buffback + 4] in [set_pos]: the reply without its first four bytes.
    A reply of fewer than four bytes ends before that address, and the text
    read there is what the buffer held before the exchange. *)
Definition reply_tail (io : sock_io) (buffback : string) : string :=
  if (String.length buffback <? 4)%nat then beyond io else skip 4 buffback.

(** [set_pos] *)
Definition set_pos (io : sock_io) (az el : Q) : bool :=
  match rotctld_socket_rw io with
  | Some buffback =>
      let retval := gint_of_double (g_strtod (reply_tail io buffback)) in
      if negb (retval =? 0)%Z then false else true
  | None => false
  end.

(** The loop of [rotctld_client_thread], one phase per lock region.
    First phase, under the lock: the pending target is copied. *)
Definition client_snapshot (cl : client_t) (th : thread_t) : thread_t :=
  let io_error := false in
  if new_trg cl
  then mk_thread (azi_out cl) (ele_out cl) (new_trg cl) io_error
  else mk_thread (t_azi th) (t_ele th) (t_new_trg th) io_error.

(** Second phase, outside the lock: the command and the position read.  The
    result also tells which position command was sent, if any. *)
Definition client_command (monitor : bool) (th : thread_t)
    (io_set io_get : sock_io) : thread_t * option (Q * Q) :=
  let '(new_trg, io_error, sent) :=
    if t_new_trg th && negb monitor then
      if set_pos io_set (t_azi th) (t_ele th)
      then (false, t_io_error th, Some (t_azi th, t_ele th))
      else (t_new_trg th, true, Some (t_azi th, t_ele th))
    else (t_new_trg th, t_io_error th, None) in
  let '(ok, azi, ele) := get_pos io_get (t_azi th) (t_ele th) in
  (mk_thread azi ele new_trg (if negb ok then true else io_error), sent).

(** Third phase, under the lock: the results are published. *)
Definition client_publish (cl : client_t) (th : thread_t) : client_t :=
  mk_client (t_azi th) (t_ele th) (azi_out cl) (ele_out cl)
    (t_new_trg th) (t_io_error th) (running cl).

(** The start of the thread, before its loop. *)
Definition client_start (cl : client_t) : client_t * thread_t :=
  (mk_client (azi_in cl) (ele_in cl) (azi_out cl) (ele_out cl) false
     (io_error cl) true,
   mk_thread 0 0 false false).

End Protocol.

(** ** The two threads together

    The mutex makes the lock regions atomic with respect to each other, so
    an execution is a sequence of events: a control tick, or the next phase
    of the client thread. *)

Inductive thread_pc := AtSnapshot | AtCommand | AtPublish.

Record system := mk_system {
  sys_ctrl : GtkRotCtrl;
  sys_thread : thread_t;
  sys_pc : thread_pc;
  sys_sent : list (Q * Q) }.

Inductive event :=
| Tick (env : tick_env)
| ClientPhase (io_set io_get : sock_io).

Section Execution.

Variable predict_calc : sat_t -> Q -> sat_t.
Variable g_strtod : string -> Q.

Definition step (s : system) (e : event) : option system :=
  match e with
  | Tick env =>
      ' (ctrl, _) <- rot_ctrl_timeout_cb predict_calc (sys_ctrl s) env ;;
      Some (mk_system ctrl (sys_thread s) (sys_pc s) (sys_sent s))
  | ClientPhase io_set io_get =>
      match sys_pc s with
      | AtSnapshot =>
          Some (mk_system (sys_ctrl s)
                  (client_snapshot (client (sys_ctrl s)) (sys_thread s))
                  AtCommand (sys_sent s))
      | AtCommand =>
          let '(th, sent) :=
            client_command g_strtod (monitor (sys_ctrl s)) (sys_thread s)
              io_set io_get in
          Some (mk_system (sys_ctrl s) th AtPublish
                  (match sent with
                   | Some cmd => sys_sent s ++ [cmd]
                   | None => sys_sent s
                   end))
      | AtPublish =>
          Some (mk_system
                  (set_client (sys_ctrl s)
                     (client_publish (client (sys_ctrl s)) (sys_thread s)))
                  (sys_thread s) AtSnapshot (sys_sent s))
      end
  end.

Fixpoint run (s : system) (es : list event) : option system :=
  match es with
  | [] => Some s
  | e :: es' => s' <- step s e ;; run s' es'
  end.

End Execution.

(** The state the tick leaves when the target it computed is [(a, e)]. *)
Definition commanded (ctrl : GtkRotCtrl) (env : tick_env) (a e : Q)
  : GtkRotCtrl :=
  match (if engaged ctrl then conf ctrl else None) with
  | Some c =>
      if trylock env
      then set_client ctrl (tick_exchange c (client ctrl) a e)
      else ctrl
  | None => ctrl
  end.

(** The situation of threshold gating: the controller tracks, a target was
    commanded before, and it lies within the threshold of the smoothed path
    point [(pa, pe)] of this tick. *)
Definition gated (ctrl : GtkRotCtrl) (pa pe : Q) : Prop :=
  tracking ctrl = true /\ is_some (target ctrl) = true
  /\ lastTrgSet ctrl = true /\ is_some (conf ctrl) = true
  /\ gtk_rot_ctrl_get_path ctrl 0 0 = Some (true, pa, pe)
  /\ is_within_threshold (gtk_rot_ctrl_smooth_az ctrl pa) pe
       (lastTrgAz ctrl) (lastTrgEl ctrl) (threshold ctrl) = true.

(** [n] ticks in a row with the same inputs. *)
Fixpoint repeat_ticks (predict_calc : sat_t -> Q -> sat_t) (n : nat)
    (ctrl : GtkRotCtrl) (env : tick_env) : option GtkRotCtrl :=
  match n with
  | O => Some ctrl
  | S n' =>
      ' (ctrl', _) <- rot_ctrl_timeout_cb predict_calc ctrl env ;;
      repeat_ticks predict_calc n' ctrl' env
  end.

(** ** Notions the properties are stated with *)

Local Close Scope string_scope.
Local Open Scope Q_scope.

(** Two neighbours of a walk are more than 180 degrees apart. *)
Definition consecutive_jump (l : list Q) : Prop :=
  exists l1 a b l2, l = l1 ++ a :: b :: l2 /\ 180 < fabs (b - a).

(** The detail samples [is_flipped_pass] looks at: indices [1 .. num-2]. *)
Definition inner_details (ds : list pass_detail_t) : list pass_detail_t :=
  removelast (tl ds).

(** The walk over AOS, detail samples and LOS. *)
Definition walk_of (aos_az : Q) (ds : list pass_detail_t) (los_az : Q) : list Q :=
  aos_az :: map detail_az ds ++ [los_az].

(** The azimuths of a pass, each smoothed against the smoothed value before
    it, the first one against itself. *)
Fixpoint smooth_from (last : Q) (azs : list Q) : list Q :=
  match azs with
  | [] => []
  | a :: rest =>
      let s := gtk_rot_ctrl_smooth last a in
      s :: smooth_from s rest
  end.

Definition smooth_unwrap (azs : list Q) : list Q :=
  match azs with
  | [] => []
  | a :: _ => smooth_from a azs
  end.

(** [m] is the least (the greatest) of the bound [b] and the values [l]. *)
Definition least_of (m b : Q) (l : list Q) : Prop :=
  m <= b /\ (forall s, In s l -> m <= s) /\ (m = b \/ In m l).

Definition greatest_of (m b : Q) (l : list Q) : Prop :=
  b <= m /\ (forall s, In s l -> s <= m) /\ (m = b \/ In m l).

(** The smoothed azimuths the scan of the profiler goes through from a
    state [st]. *)
Definition smooth_list (st : profile_t) (azs : list Q) : list Q :=
  match azs with
  | [] => []
  | a :: _ => smooth_from (if firstAz st then a else lastaz st) azs
  end.

(** A candidate offset of the profiler: both ends strictly inside the
    limits; its stretch. *)
Definition stretch_of (e : Q * Q) (off : Q) : Q :=
  fmax (fabs (fst e + off)) (fabs (snd e + off)).

Definition inside_limits (c : rotor_conf_t) (e : Q * Q) (off : Q) : Prop :=
  minaz c < fst e + off /\ snd e + off < maxaz c.

(** A step after [k] halvings. *)
Fixpoint halved (k : nat) (x : Q) : Q :=
  match k with
  | O => x
  | S k' => halved k' (x / 2)
  end.

(** One tick period in days, and half the horizon of the search. *)
Definition tick_period (ctrl : GtkRotCtrl) : Q := delay_ms ctrl / 1000 / secday.

Definition half_horizon (ctrl : GtkRotCtrl) : Q :=
  match pass ctrl with
  | Some p => (los p - ctrl_t ctrl) / 2
  | None => (1 / 72) / 2
  end.

(** The first step of the search as the specification words it: half the
    horizon, at least half a tick period. *)
Definition spec_initial_step (ctrl : GtkRotCtrl) : Q :=
  let half_tick := delay_ms ctrl / 1000 / secday / 2 in
  if Qlt_bool (half_horizon ctrl) half_tick then half_tick
  else half_horizon ctrl.

(** The square of the distance [is_within_threshold] compares. *)
Definition ring_dist2 (az1 el1 az2 el2 : Q) : Q :=
  gtk_rot_ctrl_ring_absdiff az1 az2 * gtk_rot_ctrl_ring_absdiff az1 az2
  + gtk_rot_ctrl_ring_absdiff el1 el2 * gtk_rot_ctrl_ring_absdiff el1 el2.

(** A reply holds a newline; the text before its first newline (all of it
    when it has none); the text after its first newline. *)
Definition has_nl (s : string) : Prop :=
  exists tok rest, s = (tok ++ String nl rest)%string.

Fixpoint first_line (s : string) : string :=
  match s with
  | EmptyString => EmptyString
  | String c rest =>
      if Ascii.eqb c nl then EmptyString else String c (first_line rest)
  end.

Definition after_first_line (s : string) : string :=
  skip (S (String.length (first_line s))) s.

(** ** A reading of [g_strtod] on plain decimal numerals

    Leading blanks, an optional sign, digits with an optional fraction; the
    text after the numeral is ignored, and the value is 0 when there is no
    numeral, as with [strtod]. *)

Definition digit_of (c : ascii) : option Z :=
  let n := Z.of_nat (nat_of_ascii c) in
  if ((48 <=? n) && (n <=? 57))%Z then Some (n - 48)%Z else None.

(** The digits at the head of [s]: their value after [acc], their number,
    and the rest of the text. *)
Fixpoint read_digits (s : string) (acc : Z) (count : nat) : Z * nat * string :=
  match s with
  | String c rest =>
      match digit_of c with
      | Some d => read_digits rest (acc * 10 + d)%Z (S count)
      | None => (acc, count, s)
      end
  | EmptyString => (acc, count, s)
  end.

Fixpoint skip_blanks (s : string) : string :=
  match s with
  | String c rest => if Ascii.eqb c " "%char then skip_blanks rest else s
  | EmptyString => s
  end.

Definition parse_decimal (s : string) : option Q :=
  let s := skip_blanks s in
  let '(neg, s) :=
    match s with
    | String c rest =>
        if Ascii.eqb c "-"%char then (true, rest)
        else if Ascii.eqb c "+"%char then (false, rest)
        else (false, s)
    | EmptyString => (false, s)
    end in
  let '(int_part, int_digits, s) := read_digits s 0%Z O in
  let '(num, frac_digits) :=
    match s with
    | String c rest =>
        if Ascii.eqb c "."%char
        then let '(v, n, _) := read_digits rest int_part O in (v, n)
        else (int_part, O)
    | EmptyString => (int_part, O)
    end in
  match (int_digits + frac_digits)%nat with
  | O => None
  | _ =>
      let q := inject_Z num / inject_Z (10 ^ Z.of_nat frac_digits) in
      Some (if neg : bool then - q else q)
  end.

Definition decimal_strtod (s : string) : Q :=
  match parse_decimal s with Some q => q | None => 0 end.

(** ** Scenarios *)

(** A satellite that moves one degree of azimuth per second at 45 degrees of
    elevation; time is in days. *)
Definition sweep_sat (az0 : Q) (s : sat_t) (t : Q) : sat_t :=
  mk_sat (az0 + 86400 * t) 45 (sat_aos s) (sat_los s).

Definition idle_client : client_t := mk_client 0 0 0 0 false false false.

Definition rotor_360 : rotor_conf_t := mk_conf ROT_AZ_TYPE_360 0 360 0 90 0.

(** Tracking a satellite at azimuth 100, elevation 45, no pass cached,
    one-second ticks, threshold 4.9 degrees, the last target 20 degrees
    behind. *)
Definition sweep_ctrl : GtkRotCtrl :=
  mk_ctrl (Some rotor_360) 0 (Some (mk_sat 100 45 0 0)) None false
    1000%N (49 / 10) true true false 80 45 true idle_client.

(** The same controller with its last target two degrees behind the
    satellite. *)
Definition settled_ctrl : GtkRotCtrl :=
  mk_ctrl (Some rotor_360) 0 (Some (mk_sat 100 45 0 0)) None false
    1000%N (49 / 10) true true false 98 45 true idle_client.

(** A pass whose first and last detail samples are not its AOS and LOS
    azimuths. *)
Definition odd_pass : pass_t :=
  mk_pass 0 1 10 30 [mk_detail 0 300 0; mk_detail 1 20 0].

(** A short pass from azimuth 10 to azimuth 50. *)
Definition short_pass : pass_t :=
  mk_pass 0 1 10 50 [mk_detail 0 10 0; mk_detail (1 # 2) 30 40; mk_detail 1 50 0].

Definition profile_ctrl (p : pass_t) (c : rotor_conf_t) : GtkRotCtrl :=
  mk_ctrl (Some c) 0 None (Some p) false 1000%N 5 false false false
    0 0 false idle_client.

(** A pass sampled once, at azimuth 20000, and a rotator with limits far
    beyond it. *)
Definition far_pass : pass_t := mk_pass 0 1 20000 20000 [mk_detail 0 20000 0].

Definition wide_conf : rotor_conf_t :=
  mk_conf ROT_AZ_TYPE_RAW (-100000) 100000 0 90 0.

(** A rotator that can turn from 0 to 450 degrees. *)
Definition rotor_450 : rotor_conf_t := mk_conf ROT_AZ_TYPE_RAW 0 450 0 90 0.

(** A pass that ends at the current time. *)
Definition ending_ctrl : GtkRotCtrl :=
  mk_ctrl (Some rotor_360) 1 (Some (mk_sat 100 45 0 1))
    (Some (mk_pass 0 1 10 50 [])) false 1000%N 5 true false false
    0 0 false idle_client.

(** A rotator whose elevation reaches 180 degrees, and a flipped pass on it
    with the satellite at azimuth 200, elevation 30. *)
Definition flip_conf : rotor_conf_t := mk_conf ROT_AZ_TYPE_360 0 360 0 180 0.

Definition flip_ctrl : GtkRotCtrl :=
  mk_ctrl (Some flip_conf) 0 (Some (mk_sat 200 30 0 0)) None true
    1000%N 5 true true false 0 0 false idle_client.

(** The knobs at (120, 30), not tracking, the device engaged. *)
Definition manual_ctrl : GtkRotCtrl :=
  mk_ctrl (Some rotor_360) 0 None None false 1000%N 5 false true false
    0 0 false idle_client.

Definition manual_env : tick_env := mk_env 120 30 true.

Definition position_reply : sock_io :=
  mk_io 2 (Some ("10.5" ++ String nl ("20.25" ++ String nl "")))%string
    EmptyString.

Definition garbled_reply : sock_io :=
  mk_io 2 (Some ("abc" ++ String nl "def"))%string EmptyString.

(** The client thread has started; a tick falls between its snapshot and its
    publication. *)
Definition race_start : system :=
  let '(cl, th) := client_start (client manual_ctrl) in
  mk_system (set_client manual_ctrl cl) th AtSnapshot [].

Definition race_events : list event :=
  [ ClientPhase position_reply position_reply;
    Tick manual_env;
    ClientPhase position_reply position_reply;
    ClientPhase position_reply position_reply ].

(** ** PassTracker: [gtk_rot_ctrl_update] and the callbacks around it *)

Definition set_time (ctrl : GtkRotCtrl) (t : Q) : GtkRotCtrl :=
  mk_ctrl (conf ctrl) t (target ctrl) (pass ctrl) (flipped ctrl)
    (delay ctrl) (threshold ctrl) (tracking ctrl) (engaged ctrl) (monitor ctrl)
    (lastTrgAz ctrl) (lastTrgEl ctrl) (lastTrgSet ctrl) (client ctrl).

Definition set_pass (ctrl : GtkRotCtrl) (p : option pass_t) : GtkRotCtrl :=
  mk_ctrl (conf ctrl) (ctrl_t ctrl) (target ctrl) p (flipped ctrl)
    (delay ctrl) (threshold ctrl) (tracking ctrl) (engaged ctrl) (monitor ctrl)
    (lastTrgAz ctrl) (lastTrgEl ctrl) (lastTrgSet ctrl) (client ctrl).

Definition set_target (ctrl : GtkRotCtrl) (s : option sat_t) : GtkRotCtrl :=
  mk_ctrl (conf ctrl) (ctrl_t ctrl) s (pass ctrl) (flipped ctrl)
    (delay ctrl) (threshold ctrl) (tracking ctrl) (engaged ctrl) (monitor ctrl)
    (lastTrgAz ctrl) (lastTrgEl ctrl) (lastTrgSet ctrl) (client ctrl).

(** [ctrl->lastTrgSet = FALSE;] *)
Definition reset_lastTrg (ctrl : GtkRotCtrl) : GtkRotCtrl :=
  mk_ctrl (conf ctrl) (ctrl_t ctrl) (target ctrl) (pass ctrl) (flipped ctrl)
    (delay ctrl) (threshold ctrl) (tracking ctrl) (engaged ctrl) (monitor ctrl)
    (lastTrgAz ctrl) (lastTrgEl ctrl) false (client ctrl).

(** [track_toggle_cb]: the smoothing memory is reset and [ctrl->tracking]
    takes the state of the button. *)
Definition track_toggle_cb (ctrl : GtkRotCtrl) (active : bool) : GtkRotCtrl :=
  let ctrl := reset_lastTrg ctrl in
  mk_ctrl (conf ctrl) (ctrl_t ctrl) (target ctrl) (pass ctrl) (flipped ctrl)
    (delay ctrl) (threshold ctrl) active (engaged ctrl) (monitor ctrl)
    (lastTrgAz ctrl) (lastTrgEl ctrl) (lastTrgSet ctrl) (client ctrl).

(** [gtk_rot_ctrl_select_sat]: the index handed to the satellite selector
    ([None] when the loop ends without a [break]) and the controller with
    its smoothing memory reset.  [catnrs] holds [sat->tle.catnr] of the
    entries of [ctrl->sats], [None] for a NULL entry. *)
Definition select_index (catnrs : list (option Z)) (catnum : Z) : option nat :=
  find
    (fun i =>
       match nth_error catnrs i with
       | Some (Some catnr) => (catnr =? catnum)%Z
       | _ => false
       end)
    (seq 0 (List.length catnrs)).

Definition gtk_rot_ctrl_select_sat (ctrl : GtkRotCtrl)
    (catnrs : list (option Z)) (catnum : Z) : GtkRotCtrl * option nat :=
  (reset_lastTrg ctrl, select_index catnrs catnum).

(** [update_count_down]: the time [targettime] the count-down runs to, and
    the hours, minutes and seconds it prints.  [guint_of_double] is the
    cast [(guint) x] for a value in the range of [guint]. *)
Definition count_down_target (tgt : sat_t) : Q :=
  if Qlt_bool (el tgt) 0 then sat_aos tgt else sat_los tgt.

Definition guint_of_double (x : Q) : Z := Qfloor x.

Section CountDown.

(** The difference and the product of two doubles as the machine rounds
    them: the seconds shown depend on the rounded product
    [delta * 86400], not on the exact one. *)
Variable double_sub : Q -> Q -> Q.
Variable double_mul : Q -> Q -> Q.

(** The split of [delta] days; [s / 3600] and [s / 60] are divisions of
    [guint] values, [floor] finds them whole. *)
Definition count_down_parts (delta : Q) : Z * Z * Z :=
  let s := guint_of_double (double_mul delta 86400) in
  let h := (s / 3600)%Z in
  let s := (s - 3600 * h)%Z in
  let m := (s / 60)%Z in
  let s := (s - 60 * m)%Z in
  (h, m, s).

Definition update_count_down (ctrl : GtkRotCtrl) (t : Q) : option (Z * Z * Z) :=
  tgt <- target ctrl ;;
  Some (count_down_parts (double_sub (count_down_target tgt) t)).

End CountDown.

Section PassTracker.

(** The predictor: [get_pass (sat, ctrl->qth, t, maxdt)],
    [get_current_pass (sat, ctrl->qth, t)], both NULL ([None]) when no pass
    is found, and [qth_small_dist (ctrl->qth, pass->qth_comp)]. *)
Variable get_pass : sat_t -> Q -> Q -> option pass_t.
Variable get_current_pass : sat_t -> Q -> option pass_t.
Variable qth_small_dist : pass_t -> Q.

(** The first block of [gtk_rot_ctrl_update]: the pass is too far away. *)
Definition update_drift (ctrl : GtkRotCtrl) (tgt : sat_t) (t : Q) : GtkRotCtrl :=
  match pass ctrl with
  | Some p =>
      if Qlt_bool 1 (qth_small_dist p) then
        let ctrl := set_pass ctrl (get_pass tgt t 3) in
        if is_some (pass ctrl) then set_flipped_pass ctrl else ctrl
      else ctrl
  | None => ctrl
  end.

(** The second block: the next pass is updated when necessary. *)
Definition update_pass (ctrl : GtkRotCtrl) (tgt : sat_t) (t : Q) : GtkRotCtrl :=
  match pass ctrl with
  | Some p =>
      if Qlt_bool t (aos p) || Qlt_bool (los p) t then
        if Qle_bool 0 (el tgt) then
          set_flipped_pass
            (set_pass (reset_lastTrg ctrl) (get_current_pass tgt t))
        else if Qlt_bool (delay_ms ctrl / secday / 1000 / 4)
                  (sat_aos tgt - aos p) then
          set_flipped_pass (set_pass (reset_lastTrg ctrl) (get_pass tgt t 3))
        else ctrl
      else if Qlt_bool (el tgt) 0 then
        set_flipped_pass (set_pass (reset_lastTrg ctrl) (get_pass tgt t 3))
      else ctrl
  | None =>
      set_flipped_pass
        (set_pass ctrl
           (if Qlt_bool 0 (el tgt) then get_current_pass tgt t
            else get_pass tgt t 3))
  end.

(** [gtk_rot_ctrl_update]; the labels it fills are left out. *)
Definition gtk_rot_ctrl_update (ctrl : GtkRotCtrl) (t : Q) : GtkRotCtrl :=
  let ctrl := set_time ctrl t in
  match target ctrl with
  | Some tgt => update_pass (update_drift ctrl tgt t) tgt t
  | None => ctrl
  end.

(** [sat_selected_cb]: [i] is the active row of the selector, [sats] is
    [ctrl->sats]. *)
Definition sat_selected_cb (ctrl : GtkRotCtrl) (sats : list sat_t) (i : Z)
  : option GtkRotCtrl :=
  if (0 <=? i)%Z then
    let ctrl := set_target ctrl (nth_error sats (Z.to_nat i)) in
    tgt <- target ctrl ;;
    let p :=
      if Qlt_bool 0 (el tgt) then get_current_pass tgt (ctrl_t ctrl)
      else get_pass tgt (ctrl_t ctrl) 3 in
    Some (set_flipped_pass (set_pass ctrl p))
  else Some (set_pass ctrl None).

End PassTracker.

(** The flag [ctrl->flipped] describes the cached pass under the loaded
    configuration. *)
Definition flip_consistent (ctrl : GtkRotCtrl) : Prop :=
  forall c p, conf ctrl = Some c -> pass ctrl = Some p ->
              flipped ctrl = is_flipped_pass p (aztype c) (azstoppos c).

(** Travel limits, and a position within them. *)
Definition limits_ok (c : rotor_conf_t) : Prop :=
  minaz c <= maxaz c /\ minel c <= maxel c.

Definition in_limits (c : rotor_conf_t) (a e : Q) : Prop :=
  (minaz c <= a /\ a <= maxaz c) /\ (minel c <= e /\ e <= maxel c).

(** What holds of the two threads between any two events: a pending target
    lies within the limits, the thread's own flag is only set while the
    shared flag is, the target the thread is about to send lies within the
    limits, and so does every command it has sent. *)
Definition wire_safe (c : rotor_conf_t) (s : system) : Prop :=
  conf (sys_ctrl s) = Some c
  /\ (new_trg (client (sys_ctrl s)) = true \/ t_new_trg (sys_thread s) = true ->
      in_limits c (azi_out (client (sys_ctrl s))) (ele_out (client (sys_ctrl s))))
  /\ (sys_pc s = AtSnapshot -> t_new_trg (sys_thread s) = true ->
      new_trg (client (sys_ctrl s)) = true)
  /\ (sys_pc s = AtCommand -> t_new_trg (sys_thread s) = true ->
      in_limits c (t_azi (sys_thread s)) (t_ele (sys_thread s)))
  /\ (forall cmd, In cmd (sys_sent s) -> in_limits c (fst cmd) (snd cmd)).

(** One whole iteration of the client loop with no tick in between. *)
Definition client_iteration (g_strtod : string -> Q) (monitor : bool)
    (cl : client_t) (th : thread_t) (io_set io_get : sock_io)
  : client_t * thread_t * option (Q * Q) :=
  let th1 := client_snapshot cl th in
  let '(th2, sent) := client_command g_strtod monitor th1 io_set io_get in
  (client_publish cl th2, th2, sent).

(** More scenarios: a pass whose end samples are its AOS and LOS azimuths
    and which crosses the stop of a 0..360 rotator. *)
Definition north_pass : pass_t :=
  mk_pass 0 1 350 20
    [mk_detail 0 350 0; mk_detail (1 # 2) 5 40; mk_detail 1 20 0].

(** Tracking a satellite that is below the horizon, with no pass cached. *)
Definition hidden_ctrl : GtkRotCtrl :=
  mk_ctrl (Some rotor_360) 0 (Some (mk_sat 100 (-5) 0 0)) None false
    1000%N 5 true true false 80 45 true idle_client.

(** A pass that ends in an hour and a half, tracked with one-second
    ticks. *)
Definition long_ctrl : GtkRotCtrl :=
  mk_ctrl (Some rotor_360) 0 (Some (mk_sat 100 45 0 (1 # 16)))
    (Some (mk_pass 0 (1 # 16) 10 50 [])) false 1000%N 5 true false false
    0 0 false idle_client.

(** The daemon acknowledges a position command; the tick queues the knob
    values and the client thread sends them. *)
Definition ok_reply : sock_io :=
  mk_io 12 (Some ("RPRT 0" ++ String nl ""))%string EmptyString.

Definition send_events : list event :=
  [ Tick manual_env;
    ClientPhase ok_reply position_reply;
    ClientPhase ok_reply position_reply;
    ClientPhase ok_reply position_reply ].

(** The same device in monitor mode. *)
Definition monitor_start : system :=
  mk_system
    (mk_ctrl (Some rotor_360) 0 None None false 1000%N 5 false true true
       0 0 false idle_client)
    (mk_thread 0 0 false false) AtSnapshot [].

(** * Properties *)

(** ** Comparisons *)

Lemma Qlt_bool_true (a b : Q) : Qlt_bool a b = true <-> a < b.
Proof.
  unfold Qlt_bool. rewrite negb_true_iff. split; intro H.
  - apply Qnot_le_lt. intro L. apply Qle_bool_iff in L. congruence.
  - destruct (Qle_bool b a) eqn:E; auto.
    apply Qle_bool_iff in E. exfalso. apply (Qlt_not_le _ _ H E).
Qed.

Lemma Qlt_bool_false (a b : Q) : Qlt_bool a b = false <-> b <= a.
Proof.
  unfold Qlt_bool. rewrite negb_false_iff. apply Qle_bool_iff.
Qed.

Lemma Qlt_bool_spec (a b : Q) : reflect (a < b) (Qlt_bool a b).
Proof.
  destruct (Qlt_bool a b) eqn:E; constructor.
  - now apply Qlt_bool_true.
  - apply Qlt_bool_false in E. now apply Qle_not_lt.
Qed.

(** Case analysis on a comparison of the source, keeping the fact. *)
Ltac case_lt a b :=
  let H := fresh "Hlt" in
  destruct (Qlt_bool_spec a b) as [H | H];
  [ | apply Qnot_lt_le in H ].

Lemma fabs_cases (x : Q) : (0 <= x /\ fabs x == x) \/ (x < 0 /\ fabs x == - x).
Proof.
  unfold fabs. destruct (Qlt_le_dec x 0) as [H | H].
  - right. split; auto. apply Qabs_neg. lra.
  - left. split; auto. now apply Qabs_pos.
Qed.

Ltac split_fabs x :=
  let H := fresh "Habs" in
  let E := fresh "Eabs" in
  destruct (fabs_cases x) as [[H E] | [H E]].

Lemma CLAMP_range (x low high : Q) :
  low <= high -> low <= CLAMP x low high /\ CLAMP x low high <= high.
Proof.
  intro H. unfold CLAMP.
  case_lt high x; [ lra | ].
  case_lt x low; lra.
Qed.

(** ** The wrap loops *)

Lemma qn_S (n : nat) : qn (S n) == qn n + 1.
Proof.
  unfold qn. rewrite Nat2Z.inj_succ. unfold Z.succ.
  rewrite inject_Z_plus. reflexivity.
Qed.

Lemma qn_0 : qn 0 == 0.
Proof. reflexivity. Qed.

Lemma qn_nonneg (n : nat) : 0 <= qn n.
Proof.
  unfold qn. change 0 with (inject_Z 0). rewrite <- Zle_Qle. lia.
Qed.

(** [turns d] steps of 360 cover the distance [d]. *)
Lemma turns_cover (d : Q) : d <= 360 * qn (turns d).
Proof.
  unfold turns, qn.
  assert (H1 : d / 360 <= inject_Z (Qceiling (d / 360))) by apply Qle_ceiling.
  assert (H2 : inject_Z (Qceiling (d / 360))
               <= inject_Z (Z.of_nat (Z.to_nat (Qceiling (d / 360))))).
  { rewrite <- Zle_Qle. lia. }
  assert (H3 : d == 360 * (d / 360)) by (field).
  lra.
Qed.

Lemma add360_loop_turn (n : nat) (lo x : Q) :
  exists k : nat, (k <= n)%nat /\ add360_loop n lo x == x + 360 * qn k
    /\ ((0 < k)%nat -> add360_loop n lo x < lo + 360).
Proof.
  revert x. induction n as [| n IH]; intro x; simpl.
  - exists O. split; [ lia | ]. split; [ rewrite qn_0; lra | intro Hk; exfalso; lia ].
  - case_lt x lo.
    + destruct (IH (x + 360)) as (k & Hk & E & B).
      exists (S k). split; [ lia | ]. split.
      * rewrite E, qn_S. lra.
      * intros _. destruct k as [| k].
        -- rewrite E, qn_0. lra.
        -- apply B. lia.
    + exists O. split; [ lia | ]. split; [ rewrite qn_0; lra | intro Hk; exfalso; lia ].
Qed.

Lemma add360_loop_exit (n : nat) (lo x : Q) :
  lo - x <= 360 * qn n -> lo <= add360_loop n lo x.
Proof.
  revert x. induction n as [| n IH]; intros x H; simpl.
  - rewrite qn_0 in H. lra.
  - case_lt x lo; [ | assumption ].
    apply IH. rewrite qn_S in H. lra.
Qed.

Lemma sub360_loop_turn (n : nat) (hi x : Q) :
  exists k : nat, (k <= n)%nat /\ sub360_loop n hi x == x - 360 * qn k
    /\ ((0 < k)%nat -> hi - 360 < sub360_loop n hi x).
Proof.
  revert x. induction n as [| n IH]; intro x; simpl.
  - exists O. split; [ lia | ]. split; [ rewrite qn_0; lra | intro Hk; exfalso; lia ].
  - case_lt hi x.
    + destruct (IH (x - 360)) as (k & Hk & E & B).
      exists (S k). split; [ lia | ]. split.
      * rewrite E, qn_S. lra.
      * intros _. destruct k as [| k].
        -- rewrite E, qn_0. lra.
        -- apply B. lia.
    + exists O. split; [ lia | ]. split; [ rewrite qn_0; lra | intro Hk; exfalso; lia ].
Qed.

Lemma sub360_loop_exit (n : nat) (hi x : Q) :
  x - hi <= 360 * qn n -> sub360_loop n hi x <= hi.
Proof.
  revert x. induction n as [| n IH]; intros x H; simpl.
  - rewrite qn_0 in H. lra.
  - case_lt hi x; [ | assumption ].
    apply IH. rewrite qn_S in H. lra.
Qed.

(** The loop [while (x < lo) x += 360] has exited when [raise_to] returns. *)
Lemma raise_to_exit (lo x : Q) : lo <= raise_to lo x.
Proof. apply add360_loop_exit, turns_cover. Qed.

Lemma lower_to_exit (hi x : Q) : lower_to hi x <= hi.
Proof. apply sub360_loop_exit, turns_cover. Qed.

Lemma raise_to_turn (lo x : Q) :
  exists k : nat, raise_to lo x == x + 360 * qn k
    /\ ((0 < k)%nat -> raise_to lo x < lo + 360).
Proof.
  destruct (add360_loop_turn (turns (lo - x)) lo x) as (k & _ & E & B).
  exists k. split; assumption.
Qed.

Lemma lower_to_turn (hi x : Q) :
  exists k : nat, lower_to hi x == x - 360 * qn k
    /\ ((0 < k)%nat -> hi - 360 < lower_to hi x).
Proof.
  destruct (sub360_loop_turn (turns (x - hi)) hi x) as (k & _ & E & B).
  exists k. split; assumption.
Qed.

(** ** AngleMath *)

Lemma fabs_nonneg (x : Q) : 0 <= fabs x.
Proof. apply Qabs_nonneg. Qed.

Lemma fabs_sym (a b : Q) : fabs (b - a) == fabs (a - b).
Proof. split_fabs (b - a); split_fabs (a - b); lra. Qed.

(** The third test of the source, [diff < -180], never holds. *)
Lemma ring_absdiff_cases (a b : Q) :
  (fabs (a - b) <= 180 /\ gtk_rot_ctrl_ring_absdiff a b == fabs (a - b))
  \/ (180 < fabs (a - b)
      /\ gtk_rot_ctrl_ring_absdiff a b == fabs (fabs (a - b) - 360)).
Proof.
  unfold gtk_rot_ctrl_ring_absdiff. cbv zeta.
  case_lt 180 (fabs (a - b)).
  - right. split; [ assumption | ].
    case_lt (fabs (fabs (a - b) - 360)) (-180); [ | reflexivity ].
    pose proof (fabs_nonneg (fabs (a - b) - 360)). lra.
  - left. split; [ assumption | ].
    case_lt (fabs (a - b)) (-180); [ | reflexivity ].
    pose proof (fabs_nonneg (a - b)). lra.
Qed.

(** C8, as the code has it: the ring distance is symmetric and never
    negative; it is [|a-b|], reflected once through 360 when that exceeds
    180; it lies in [[0,180]] whenever [|a-b|] is at most 540; and
    [ring_absdiff (10, 350)] is 20. *)
Theorem ring_absdiff_single_reflection (a b : Q) :
  gtk_rot_ctrl_ring_absdiff a b == gtk_rot_ctrl_ring_absdiff b a
  /\ 0 <= gtk_rot_ctrl_ring_absdiff a b
  /\ (fabs (a - b) <= 180 -> gtk_rot_ctrl_ring_absdiff a b == fabs (a - b))
  /\ (180 < fabs (a - b) ->
      gtk_rot_ctrl_ring_absdiff a b == fabs (fabs (a - b) - 360))
  /\ (fabs (a - b) <= 540 -> gtk_rot_ctrl_ring_absdiff a b <= 180)
  /\ gtk_rot_ctrl_ring_absdiff 10 350 == 20.
Proof.
  pose proof (fabs_sym a b) as Hsym.
  pose proof (fabs_nonneg (a - b)) as Hpos.
  destruct (ring_absdiff_cases a b) as [[Hab Eab] | [Hab Eab]];
    destruct (ring_absdiff_cases b a) as [[Hba Eba] | [Hba Eba]];
    try lra.
  - repeat split; try lra.
  - split_fabs (fabs (a - b) - 360); split_fabs (fabs (b - a) - 360);
      repeat split; try lra.
Qed.

Lemma ring_absdiff_single_reflection_witness :
  fabs (350 - (-100)) <= 540 /\ gtk_rot_ctrl_ring_absdiff 350 (-100) <= 180.
Proof.
  assert (H : fabs (350 - (-100)) <= 540) by (vm_compute; discriminate).
  split; [ exact H | ].
  destruct (ring_absdiff_single_reflection 350 (-100))
    as (_ & _ & _ & _ & Hrange & _).
  exact (Hrange H).
Defined.

(** C8 as stated fails: two angles two whole turns apart are at ring
    distance 360 for the code. *)
Lemma ring_absdiff_two_turns :
  gtk_rot_ctrl_ring_absdiff 0 720 == 360
  /\ ~ gtk_rot_ctrl_ring_absdiff 0 720 <= 180.
Proof.
  split.
  - vm_compute. reflexivity.
  - vm_compute. intro H. apply H. reflexivity.
Qed.

(** ** Path point *)

Lemma flip_enabled_true (ctrl : GtkRotCtrl) :
  flip_enabled ctrl = Some true <->
  flipped ctrl = true /\ exists c, conf ctrl = Some c /\ 180 <= maxel c.
Proof.
  unfold flip_enabled, bind. destruct (flipped ctrl).
  - destruct (conf ctrl) as [c |].
    + split.
      * intro H. injection H as H. split; [ reflexivity | ].
        exists c. split; [ reflexivity | ]. now apply Qle_bool_iff.
      * intros (_ & c' & E & H). injection E as <-.
        apply Qle_bool_iff in H. now rewrite H.
    + split; [ discriminate | ]. intros (_ & c & E & _). discriminate.
  - split; [ discriminate | ]. intros (E & _). discriminate.
Qed.

Ltac break_hyps :=
  repeat match goal with
    | H : exists _, _ |- _ => destruct H
    | H : _ /\ _ |- _ => destruct H
    | H : _ \/ _ |- _ => destruct H
    | H : Some _ = None |- _ => discriminate H
    | H : None = Some _ |- _ => discriminate H
    | H : Some ?p = Some ?q |- _ =>
        first [ is_var q; injection H as -> | is_var p; injection H as <- ]
    end.

Ltac path_close :=
  intros; break_hyps;
  first [ congruence | lra | reflexivity | tauto
        | left; reflexivity
        | right; eexists; split; [ reflexivity | split; lra ]
        | do 3 eexists; reflexivity
        | split; [ assumption | left; reflexivity ]
        | split; [ assumption | right; eexists; split; [ reflexivity | split; lra ] ]
        | right; do 2 eexists; reflexivity ].

(** The point [gtk_rot_ctrl_get_path] holds before the flip, and what it
    returns once the flip is decided. *)
Lemma get_path_point (ctrl : GtkRotCtrl) (tgt : sat_t) (flip : bool)
    (pthaz pthel : Q)
    (Htgt : target ctrl = Some tgt) (Hflip : flip_enabled ctrl = Some flip) :
  exists got a e,
    gtk_rot_ctrl_get_path ctrl pthaz pthel
    = Some (if flip then (got, flip_az a, 180 - e) else (got, a, e))
    /\ (got = false <->
        el tgt < 0
        /\ (pass ctrl = None
            \/ exists p, pass ctrl = Some p
                 /\ aos p <= ctrl_t ctrl /\ ctrl_t ctrl <= los p))
    /\ (got = false -> a = pthaz /\ e = pthel)
    /\ (0 <= el tgt -> got = true /\ a = az tgt /\ e = el tgt)
    /\ (forall p, el tgt < 0 -> pass ctrl = Some p -> ctrl_t ctrl < aos p ->
        got = true /\ a = aos_az p /\ e = 0)
    /\ (forall p, el tgt < 0 -> pass ctrl = Some p ->
        aos p <= ctrl_t ctrl -> los p < ctrl_t ctrl ->
        got = true /\ a = los_az p /\ e = 0).
Proof.
  unfold gtk_rot_ctrl_get_path. rewrite Htgt, Hflip. unfold bind.
  case_lt (el tgt) 0.
  - destruct (pass ctrl) as [p |].
    + case_lt (ctrl_t ctrl) (aos p); [ | case_lt (los p) (ctrl_t ctrl) ].
      * exists true, (aos_az p), 0. split; [ reflexivity | ].
        repeat split; try solve [ path_close ].
      * exists true, (los_az p), 0. split; [ reflexivity | ].
        repeat split; try solve [ path_close ].
      * exists false, pthaz, pthel. split; [ reflexivity | ].
        repeat split; try solve [ path_close ].
    + exists false, pthaz, pthel. split; [ reflexivity | ].
      repeat split; try solve [ path_close ].
  - exists true, (az tgt), (el tgt). split; [ reflexivity | ].
    repeat split; try solve [ path_close ].
Qed.

(** C10: [gtk_rot_ctrl_get_path] returns FALSE exactly when the target's
    elevation is negative and either no pass is cached or the time lies
    within [[aos, los]] of the pass; no path value is then assigned, the
    point [(a, e)] is what the output parameters held.  In every other case
    it returns TRUE and the point is the satellite's azimuth and elevation
    (elevation not negative), the AOS azimuth at elevation 0 (time before
    AOS) or the LOS azimuth at elevation 0 (time after LOS and not before
    AOS, which is every time after LOS when the pass has [aos <= los]).
    When the pass is flipped and [conf->maxel >= 180] the outputs are the
    flipped point: elevation [180 - e], azimuth [a - 180] for [a] above 180
    and [a + 180] otherwise; in all other cases the outputs are the point
    itself.  A flipped pass without a rotator configuration gives no
    result: the code reads [conf->maxel] through the null pointer. *)
Theorem get_path_outcome (ctrl : GtkRotCtrl) (tgt : sat_t) (pthaz pthel : Q)
    (Htgt : target ctrl = Some tgt) :
  let res := gtk_rot_ctrl_get_path ctrl pthaz pthel in
  let t := ctrl_t ctrl in
  (flipped ctrl = true -> conf ctrl = None -> res = None)
  /\ ((flipped ctrl = true -> conf ctrl <> None) ->
      exists (got : bool) (a e az' el' : Q),
        res = Some (got, az', el')
        /\ (got = false <->
            el tgt < 0
            /\ (pass ctrl = None
                \/ exists p, pass ctrl = Some p /\ aos p <= t /\ t <= los p))
        /\ (got = false -> a = pthaz /\ e = pthel)
        /\ (0 <= el tgt -> got = true /\ a = az tgt /\ e = el tgt)
        /\ (forall p, el tgt < 0 -> pass ctrl = Some p -> t < aos p ->
            got = true /\ a = aos_az p /\ e = 0)
        /\ (forall p, el tgt < 0 -> pass ctrl = Some p ->
            aos p <= t -> los p < t ->
            got = true /\ a = los_az p /\ e = 0)
        /\ (forall p, el tgt < 0 -> pass ctrl = Some p ->
            aos p <= los p -> los p < t ->
            got = true /\ a = los_az p /\ e = 0)
        /\ ((flipped ctrl = true
             /\ exists c, conf ctrl = Some c /\ 180 <= maxel c) ->
            el' = 180 - e
            /\ (180 < a -> az' = a - 180)
            /\ (a <= 180 -> az' = a + 180))
        /\ (~ (flipped ctrl = true
               /\ exists c, conf ctrl = Some c /\ 180 <= maxel c) ->
            az' = a /\ el' = e)).
Proof.
  intros res t. subst res t. split.
  - intros Hf Hc. unfold gtk_rot_ctrl_get_path, flip_enabled.
    rewrite Htgt, Hf, Hc. cbn [bind].
    now destruct (if Qlt_bool (el tgt) 0 then _ else _) as [[g a] e].
  - intro Hconf.
    assert (Hflip : exists flip, flip_enabled ctrl = Some flip).
    { unfold flip_enabled. destruct (flipped ctrl); [ | now exists false ].
      destruct (conf ctrl) as [c |]; [ | now destruct Hconf ].
      cbn [bind]. now eexists. }
    destruct Hflip as (flip & Hflip).
    pose proof (flip_enabled_true ctrl) as Hf. rewrite Hflip in Hf.
    destruct (get_path_point ctrl tgt flip pthaz pthel Htgt Hflip)
      as (got & a & e & E & Hno & Hkeep & Hup & Haos & Hlos).
    rewrite E. destruct flip.
    + exists got, a, e, (flip_az a), (180 - e).
      split; [ reflexivity | ]. split; [ exact Hno | ].
      split; [ exact Hkeep | ]. split; [ exact Hup | ].
      split; [ exact Haos | ]. split; [ exact Hlos | ].
      split; [ intros p H1 H2 H3 H4; apply (Hlos p H1 H2); lra | ].
      split.
      * intros _. split; [ reflexivity | ]. unfold flip_az.
        case_lt 180 a; split; intro; solve [ reflexivity | lra ].
      * intro Hn. destruct Hn. now apply Hf.
    + exists got, a, e, a, e.
      split; [ reflexivity | ]. split; [ exact Hno | ].
      split; [ exact Hkeep | ]. split; [ exact Hup | ].
      split; [ exact Haos | ]. split; [ exact Hlos | ].
      split; [ intros p H1 H2 H3 H4; apply (Hlos p H1 H2); lra | ].
      split.
      * intro H. apply Hf in H. discriminate H.
      * intros _. split; reflexivity.
Qed.

Lemma get_path_outcome_witness :
  gtk_rot_ctrl_get_path flip_ctrl 0 0 = Some (true, 200 - 180, 180 - 30).
Proof.
  destruct (get_path_outcome flip_ctrl (mk_sat 200 30 0 0) 0 0 eq_refl)
    as (_ & H).
  assert (Hconf : flipped flip_ctrl = true -> conf flip_ctrl <> None)
    by (intros _; discriminate).
  destruct (H Hconf)
    as (got & a & e & az' & el' & E & _ & _ & Hup & _ & _ & _ & Hfl & _).
  assert (Hel : 0 <= el (mk_sat 200 30 0 0)) by (vm_compute; discriminate).
  destruct (Hup Hel) as (-> & -> & ->).
  assert (Hflips : flipped flip_ctrl = true
                   /\ exists c, conf flip_ctrl = Some c /\ 180 <= maxel c).
  { split; [ reflexivity | ]. exists flip_conf.
    split; [ reflexivity | ]. vm_compute. discriminate. }
  destruct (Hfl Hflips) as (-> & Hgt & _).
  rewrite E, Hgt; [ reflexivity | ]. vm_compute. reflexivity.
Defined.

(** ** The control tick *)

Ltac unbind H :=
  repeat match type of H with
    | bind ?x _ = Some _ =>
        let E := fresh "E" in
        destruct x eqn:E; [ cbn [bind] in H | discriminate H ]
    | (let '(_, _) := ?x in _) = Some _ => destruct x
    | (if ?b then _ else _) = Some _ => destruct b eqn:?
    | Some _ = Some _ => injection H as H; subst
    end.

Section TickFacts.

Variable predict_calc : sat_t -> Q -> sat_t.

(** The first half of the tick touches the smoothing memory only. *)
Lemma tick_target_frame (ctrl ctrl1 : GtkRotCtrl) (env : tick_env)
    (a e : Q) (ps : Q * Q) (kn : option (Q * Q)) :
  tick_target predict_calc ctrl env = Some (ctrl1, a, e, ps, kn) ->
  ctrl1 = ctrl \/ exists a' e', ctrl1 = set_lastTrg ctrl a' e'.
Proof.
  unfold tick_target. intro H.
  destruct (negb (tracking ctrl && is_some (target ctrl))).
  - injection H as <- _ _ _ _. right. eauto.
  - unbind H; [ right; eauto | left; reflexivity ].
Qed.

Lemma set_lastTrg_same (ctrl : GtkRotCtrl) :
  lastTrgSet ctrl = true ->
  set_lastTrg ctrl (lastTrgAz ctrl) (lastTrgEl ctrl) = ctrl.
Proof.
  destruct ctrl; unfold set_lastTrg; cbn. intros ->. reflexivity.
Qed.

Lemma tick_of_target (ctrl ctrl1 : GtkRotCtrl) (env : tick_env)
    (a e : Q) (ps : Q * Q) (kn : option (Q * Q)) :
  tick_target predict_calc ctrl env = Some (ctrl1, a, e, ps, kn) ->
  exists out,
    rot_ctrl_timeout_cb predict_calc ctrl env
    = Some (commanded (set_client ctrl1 (client ctrl1)) env a e, out).
Proof.
  intro H. pose proof (tick_target_frame _ _ _ _ _ _ _ H) as Hframe.
  unfold rot_ctrl_timeout_cb, commanded. rewrite H. cbn [bind].
  assert (Heng : engaged ctrl1 = engaged ctrl /\ conf ctrl1 = conf ctrl).
  { destruct Hframe as [-> | (a' & e' & ->)]; split; reflexivity. }
  destruct Heng as [He Hc].
  assert (Hid : set_client ctrl1 (client ctrl1) = ctrl1)
    by (destruct ctrl1; reflexivity).
  rewrite Hid, He, Hc.
  destruct (engaged ctrl); [ destruct (conf ctrl) | ];
    try destruct (trylock env); eexists; reflexivity.
Qed.

(** C2: a tick that returns, with limits [minaz <= maxaz] and
    [minel <= maxel], writes to the shared record only when the device is
    engaged and the lock was acquired, and the azimuth and elevation it
    writes lie within the limits; otherwise the record is left as it was. *)
Theorem tick_commands_within_limits (ctrl ctrl' : GtkRotCtrl)
    (env : tick_env) (out : tick_out) (c : rotor_conf_t)
    (Hrun : rot_ctrl_timeout_cb predict_calc ctrl env = Some (ctrl', out))
    (Hconf : conf ctrl = Some c)
    (Haz : minaz c <= maxaz c) (Hel : minel c <= maxel c) :
  (engaged ctrl = true -> trylock env = true ->
   minaz c <= azi_out (client ctrl') /\ azi_out (client ctrl') <= maxaz c
   /\ minel c <= ele_out (client ctrl') /\ ele_out (client ctrl') <= maxel c
   /\ new_trg (client ctrl') = true)
  /\ (engaged ctrl = false \/ trylock env = false ->
      client ctrl' = client ctrl).
Proof.
  destruct (tick_target predict_calc ctrl env)
    as [[[[[ctrl1 a] e] ps] kn] |] eqn:Ht.
  2: { unfold rot_ctrl_timeout_cb in Hrun. rewrite Ht in Hrun. discriminate. }
  destruct (tick_of_target _ _ _ _ _ _ _ Ht) as (out' & Hrun').
  rewrite Hrun in Hrun'. injection Hrun' as -> _.
  assert (Hid : set_client ctrl1 (client ctrl1) = ctrl1)
    by (destruct ctrl1; reflexivity).
  rewrite Hid.
  assert (Hsame : engaged ctrl1 = engaged ctrl /\ conf ctrl1 = conf ctrl
                  /\ client ctrl1 = client ctrl).
  { destruct (tick_target_frame _ _ _ _ _ _ _ Ht) as [-> | (a' & e' & ->)];
      repeat split; reflexivity. }
  destruct Hsame as (He & Hc & Hcl).
  unfold commanded. rewrite He, Hc, Hconf. split.
  - intros -> ->. cbn.
    pose proof (CLAMP_range a _ _ Haz). pose proof (CLAMP_range e _ _ Hel).
    tauto.
  - intros [-> | ->]; [ assumption | ].
    destruct (engaged ctrl); assumption.
Qed.

(** The target of a tick whose last target is still within the threshold of
    the path point. *)
Lemma tick_target_gated (ctrl : GtkRotCtrl) (env : tick_env) (pa pe : Q) :
  gated ctrl pa pe ->
  exists off ps kn,
    gtk_rot_ctrl_profile_az ctrl (lastTrgAz ctrl) = Some off
    /\ tick_target predict_calc ctrl env
       = Some (ctrl, lastTrgAz ctrl + off, lastTrgEl ctrl, ps, kn).
Proof.
  intros (Htr & Htgt & Hset & Hconf & Hpath & Hin).
  destruct (target ctrl) as [tgt |] eqn:Et; [ | discriminate ].
  destruct (conf ctrl) as [c |] eqn:Ec; [ | discriminate ].
  assert (Hoff : exists off,
             gtk_rot_ctrl_profile_az ctrl (lastTrgAz ctrl) = Some off).
  { unfold gtk_rot_ctrl_profile_az. rewrite Ec.
    destruct (pass ctrl); eexists; reflexivity. }
  destruct Hoff as (off & Hoff).
  exists off. unfold tick_target.
  rewrite Htr, Et, Hpath. cbn [is_some andb negb bind].
  rewrite Hset, Hin. cbn [negb bind].
  rewrite (set_lastTrg_same _ Hset), Hoff, Ec. cbn [bind].
  do 2 eexists. split; reflexivity.
Qed.

Lemma gated_commanded (ctrl : GtkRotCtrl) (env : tick_env) (a e pa pe : Q) :
  gated ctrl pa pe -> gated (commanded ctrl env a e) pa pe.
Proof.
  intro H. unfold commanded.
  destruct (if engaged ctrl then conf ctrl else None);
    [ destruct (trylock env) | ]; assumption.
Qed.

Lemma commanded_twice (ctrl : GtkRotCtrl) (env : tick_env) (a e : Q) :
  commanded (commanded ctrl env a e) env a e = commanded ctrl env a e.
Proof.
  unfold commanded.
  destruct (engaged ctrl) eqn:He; [ destruct (conf ctrl) eqn:Hc | ];
    try destruct (trylock env) eqn:Hl; cbn; rewrite ?He, ?Hc, ?Hl;
    reflexivity.
Qed.

(** One gated tick: the smoothing memory is kept, the state is the one
    [commanded] describes. *)
Lemma gated_tick (ctrl : GtkRotCtrl) (env : tick_env) (pa pe : Q) :
  gated ctrl pa pe ->
  exists off out,
    gtk_rot_ctrl_profile_az ctrl (lastTrgAz ctrl) = Some off
    /\ rot_ctrl_timeout_cb predict_calc ctrl env
       = Some (commanded ctrl env (lastTrgAz ctrl + off) (lastTrgEl ctrl), out).
Proof.
  intro G. destruct (tick_target_gated ctrl env pa pe G)
    as (off & ps & kn & Hoff & Ht).
  destruct (tick_of_target _ _ _ _ _ _ _ Ht) as (out & Hrun).
  exists off, out. split; [ assumption | ].
  rewrite Hrun. do 3 f_equal. destruct ctrl; reflexivity.
Qed.

Lemma commanded_memory (ctrl : GtkRotCtrl) (env : tick_env) (a e : Q) :
  lastTrgAz (commanded ctrl env a e) = lastTrgAz ctrl
  /\ lastTrgEl (commanded ctrl env a e) = lastTrgEl ctrl
  /\ lastTrgSet (commanded ctrl env a e) = lastTrgSet ctrl
  /\ gtk_rot_ctrl_profile_az (commanded ctrl env a e) (lastTrgAz ctrl)
     = gtk_rot_ctrl_profile_az ctrl (lastTrgAz ctrl).
Proof.
  unfold commanded.
  destruct (if engaged ctrl then conf ctrl else None);
    [ destruct (trylock env) | ]; repeat split; reflexivity.
Qed.

Lemma gated_fixpoint (env : tick_env) (pa pe : Q) (n : nat) :
  forall ctrl off,
    gated ctrl pa pe ->
    gtk_rot_ctrl_profile_az ctrl (lastTrgAz ctrl) = Some off ->
    commanded ctrl env (lastTrgAz ctrl + off) (lastTrgEl ctrl) = ctrl ->
    repeat_ticks predict_calc n ctrl env = Some ctrl.
Proof.
  induction n as [| n IH]; intros ctrl off G Hoff Hfix; [ reflexivity | ].
  destruct (gated_tick ctrl env pa pe G) as (off' & out & Hoff' & Hrun).
  rewrite Hoff in Hoff'. injection Hoff' as <-.
  cbn [repeat_ticks]. rewrite Hrun. cbn [bind]. rewrite Hfix.
  now apply (IH ctrl off).
Qed.

(** C5: when the controller tracks, a target was commanded before and that
    target lies within the threshold of the smoothed path point, a tick
    returns and leaves [lastTrgAz] and [lastTrgEl] as they were; any number
    of further ticks with the same inputs leaves the whole state, the
    commanded values included, as the first tick left it. *)
Theorem threshold_gating_idempotent (ctrl : GtkRotCtrl) (env : tick_env)
    (pa pe : Q) (Hgated : gated ctrl pa pe) :
  exists ctrl1 out,
    rot_ctrl_timeout_cb predict_calc ctrl env = Some (ctrl1, out)
    /\ lastTrgAz ctrl1 = lastTrgAz ctrl
    /\ lastTrgEl ctrl1 = lastTrgEl ctrl
    /\ lastTrgSet ctrl1 = true
    /\ forall n, repeat_ticks predict_calc (S n) ctrl env = Some ctrl1.
Proof.
  destruct (gated_tick ctrl env pa pe Hgated) as (off & out & Hoff & Hrun).
  set (a := lastTrgAz ctrl + off) in *. set (e := lastTrgEl ctrl) in *.
  destruct (commanded_memory ctrl env a e) as (Haz & Hel & Hset & Hprof).
  exists (commanded ctrl env a e), out.
  repeat split; try assumption.
  - rewrite Hset. apply Hgated.
  - intro n. cbn [repeat_ticks]. rewrite Hrun. cbn [bind].
    apply (gated_fixpoint env pa pe n _ off).
    + now apply gated_commanded.
    + rewrite Haz, Hprof. exact Hoff.
    + rewrite Haz, Hel. apply commanded_twice.
Qed.

End TickFacts.

Lemma tick_commands_within_limits_witness :
  exists ctrl',
    option_map fst
      (rot_ctrl_timeout_cb (sweep_sat 100) manual_ctrl (mk_env 400 (-5) true))
    = Some ctrl'
    /\ 0 <= azi_out (client ctrl') /\ azi_out (client ctrl') <= 360
    /\ 0 <= ele_out (client ctrl') /\ ele_out (client ctrl') <= 90.
Proof.
  destruct (rot_ctrl_timeout_cb (sweep_sat 100) manual_ctrl
              (mk_env 400 (-5) true)) as [[ctrl' out] |] eqn:E;
    [ | vm_compute in E; discriminate E ].
  exists ctrl'. split; [ reflexivity | ].
  assert (Haz : minaz rotor_360 <= maxaz rotor_360)
    by (vm_compute; discriminate).
  assert (Hel : minel rotor_360 <= maxel rotor_360)
    by (vm_compute; discriminate).
  destruct (tick_commands_within_limits (sweep_sat 100) manual_ctrl ctrl'
              (mk_env 400 (-5) true) out rotor_360 E eq_refl Haz Hel)
    as [Hin _].
  destruct (Hin eq_refl eq_refl) as (H1 & H2 & H3 & H4 & _).
  repeat split; assumption.
Defined.

Lemma threshold_gating_idempotent_witness :
  exists ctrl1,
    repeat_ticks (sweep_sat 100) 3 settled_ctrl manual_env = Some ctrl1
    /\ lastTrgAz ctrl1 = 98 /\ lastTrgEl ctrl1 = 45.
Proof.
  assert (G : gated settled_ctrl 100 45)
    by (unfold gated; repeat split; vm_compute; reflexivity).
  destruct (threshold_gating_idempotent (sweep_sat 100) settled_ctrl
              manual_env 100 45 G)
    as (ctrl1 & out & Hrun & Haz & Hel & Hset & Hrep).
  exists ctrl1. split; [ apply (Hrep 2%nat) | ].
  split; assumption.
Defined.

(** ** Flip detection *)

Lemma skipn_nth_error {A} (l : list A) (i : nat) (x : A) :
  nth_error l i = Some x -> skipn i l = x :: skipn (S i) l.
Proof.
  revert i. induction l as [| y l IH]; intros [| i] H; try discriminate.
  - injection H as ->. reflexivity.
  - apply (IH i H).
Qed.

(** A loop over the indices [a .. a+k-1] of a list visits the elements at
    those positions. *)
Lemma fold_indices {A S} (f : S -> A -> S) (ds : list A) (k : nat) :
  forall (a : nat) (st : S),
    (a + k <= List.length ds)%nat ->
    fold_left
      (fun st i => match nth_error ds i with Some d => f st d | None => st end)
      (seq a k) st
    = fold_left f (firstn k (skipn a ds)) st.
Proof.
  induction k as [| k IH]; intros a st H; [ reflexivity | ].
  destruct (nth_error ds a) as [d |] eqn:E.
  - cbn [seq fold_left]. rewrite E, (skipn_nth_error _ _ _ E).
    cbn [firstn fold_left]. apply IH. lia.
  - apply nth_error_None in E. lia.
Qed.

Lemma inner_details_firstn (ds : list pass_detail_t) :
  inner_details ds = firstn (List.length ds - 1 - 1) (skipn 1 ds).
Proof.
  unfold inner_details. rewrite removelast_firstn_len.
  destruct ds as [| d ds]; [ reflexivity | ].
  cbn [tl skipn List.length]. f_equal. lia.
Qed.

Lemma fold_left_map {A B S} (f : S -> B -> S) (g : A -> B) (l : list A) :
  forall st, fold_left f (map g l) st = fold_left (fun st x => f st (g x)) l st.
Proof. induction l as [| x l IH]; intro st; [ reflexivity | apply IH ]. Qed.

(** [is_flipped_pass] walks the AOS azimuth, the detail samples but the
    first and the last, and the LOS azimuth. *)
Lemma is_flipped_pass_walk (p : pass_t) (type : rot_az_type_t) (stop : Q) :
  let range := flip_range type stop in
  is_flipped_pass p type stop
  = snd (fold_left (flip_step range)
           (map detail_az (inner_details (details p)) ++ [los_az p])
           (settable_az range (aos_az p), false)).
Proof.
  intro range. unfold is_flipped_pass. fold range.
  rewrite fold_left_app. cbn [fold_left]. f_equal. f_equal.
  rewrite fold_left_map.
  destruct (Nat.ltb_spec 1 (List.length (details p))) as [H | H].
  - unfold flip_scan. rewrite inner_details_firstn.
    apply fold_indices. lia.
  - rewrite inner_details_firstn.
    replace (List.length (details p) - 1 - 1)%nat with O by lia.
    reflexivity.
Qed.

Lemma consecutive_jump_one (a : Q) : ~ consecutive_jump [a].
Proof.
  intros (l1 & x & y & l2 & E & _).
  destruct l1 as [| z [| z' l1]]; discriminate.
Qed.

Lemma consecutive_jump_cons (a b : Q) (l : list Q) :
  consecutive_jump (a :: b :: l)
  <-> 180 < fabs (b - a) \/ consecutive_jump (b :: l).
Proof.
  split.
  - intros (l1 & x & y & l2 & E & H). destruct l1 as [| z l1].
    + injection E as -> -> _. now left.
    + right. injection E as _ E. exists l1, x, y, l2. now split.
  - intros [H | (l1 & x & y & l2 & E & H)].
    + exists [], a, b, l. now split.
    + exists (a :: l1), x, y, l2. split; [ | assumption ].
      cbn. now rewrite E.
Qed.

(** The flag of the walk is raised exactly by a jump between neighbours. *)
Lemma flip_walk_jump (range : Q * Q) (xs : list Q) :
  forall (last : Q) (r : bool),
    snd (fold_left (flip_step range) xs (last, r)) = true
    <-> r = true \/ consecutive_jump (last :: map (settable_az range) xs).
Proof.
  induction xs as [| x xs IH]; intros last r.
  - cbn. split; [ now left | ].
    intros [H | H]; [ assumption | ]. now apply consecutive_jump_one in H.
  - cbn [fold_left map flip_step].
    rewrite IH, consecutive_jump_cons.
    case_lt 180 (fabs (settable_az range x - last)).
    + split; intros _; [ right | ]; now left.
    + split.
      * intros [H | H]; [ now left | right; now right ].
      * intros [H | [H | H]]; [ now left | | now right ].
        exfalso. apply (Qlt_not_le _ _ H). assumption.
Qed.

(** The two wrap loops leave an azimuth a whole number of turns from where
    it was, not below the lower end of the range, and within a range that
    spans 360 degrees. *)
Lemma settable_az_turns (range : Q * Q) (x : Q) :
  (exists k : Z, settable_az range x == x + 360 * inject_Z k)
  /\ fst range <= settable_az range x
  /\ (snd range == fst range + 360 -> settable_az range x <= snd range).
Proof.
  unfold settable_az.
  destruct (lower_to_turn (snd range) x) as (k1 & E1 & B1).
  destruct (raise_to_turn (fst range) (lower_to (snd range) x))
    as (k2 & E2 & B2).
  pose proof (lower_to_exit (snd range) x) as X1.
  pose proof (raise_to_exit (fst range) (lower_to (snd range) x)) as X2.
  repeat split.
  - exists (Z.of_nat k2 - Z.of_nat k1)%Z.
    rewrite E2, E1. unfold Zminus. rewrite inject_Z_plus, inject_Z_opp.
    unfold qn. lra.
  - assumption.
  - intro W. destruct k2 as [| k2].
    + rewrite E2, qn_0. lra.
    + assert (H : (0 < S k2)%nat) by lia. specialize (B2 H). lra.
Qed.

(** C3, as the code has it: [is_flipped_pass] is true exactly when two
    neighbours of the walk over the AOS azimuth, the detail samples other
    than the first and the last one, and the LOS azimuth, each unwrapped by
    the two loops of the code, are more than 180 degrees apart.  An
    unwrapped azimuth is a whole number of turns from the raw one and not
    below the lower end of the shifted range; for the 0..360 and the
    -180..180 types it lies within the range. *)
Theorem is_flipped_pass_inner_walk (p : pass_t) (type : rot_az_type_t)
    (azstoppos : Q) :
  let range := flip_range type azstoppos in
  (is_flipped_pass p type azstoppos = true
   <-> consecutive_jump
         (map (settable_az range)
            (walk_of (aos_az p) (inner_details (details p)) (los_az p))))
  /\ forall x,
       (exists k : Z, settable_az range x == x + 360 * inject_Z k)
       /\ fst range <= settable_az range x
       /\ (type <> ROT_AZ_TYPE_RAW -> settable_az range x <= snd range).
Proof.
  intro range. split.
  - rewrite is_flipped_pass_walk. fold range. rewrite flip_walk_jump.
    unfold walk_of. cbn [map]. split; [ | now right ].
    intros [H | H]; [ discriminate | assumption ].
  - intro x. destruct (settable_az_turns range x) as (Hk & Hlo & Hhi).
    repeat split; try assumption.
    intro Hty. apply Hhi. subst range. unfold flip_range.
    destruct type; cbn [fst snd]; try congruence; lra.
Qed.

(** C3 as stated fails on a pass whose first detail sample is not at its AOS
    azimuth: the walk over all the samples jumps from 10 to 300, the code
    does not look at that sample. *)
Lemma is_flipped_pass_skips_end_samples :
  ~ (is_flipped_pass odd_pass ROT_AZ_TYPE_360 0 = true
     <-> consecutive_jump
           (map (settable_az (flip_range ROT_AZ_TYPE_360 0))
              (walk_of (aos_az odd_pass) (details odd_pass) (los_az odd_pass)))).
Proof.
  intros [_ H].
  assert (F : is_flipped_pass odd_pass ROT_AZ_TYPE_360 0 = false)
    by (vm_compute; reflexivity).
  rewrite F in H. apply Bool.diff_false_true, H.
  eexists [], _, _, _. split.
  - cbn [walk_of odd_pass aos_az los_az details map app]. reflexivity.
  - vm_compute. reflexivity.
Qed.

Lemma is_flipped_pass_inner_walk_witness :
  settable_az (flip_range ROT_AZ_TYPE_360 0) 725 <= 360
  /\ (is_flipped_pass odd_pass ROT_AZ_TYPE_360 0 = true
      <-> consecutive_jump
            (map (settable_az (flip_range ROT_AZ_TYPE_360 0)) [10; 30])).
Proof.
  destruct (is_flipped_pass_inner_walk odd_pass ROT_AZ_TYPE_360 0)
    as [Hwalk Hturn].
  split.
  - destruct (Hturn 725) as (_ & _ & Hhi). apply Hhi. discriminate.
  - exact Hwalk.
Defined.

(** ** The future-target search *)

Lemma half_eq (x : Q) : x / 2 == x * (1 # 2).
Proof. reflexivity. Qed.

Lemma halved_nonneg (k : nat) : forall x, 0 <= x -> 0 <= halved k x.
Proof.
  induction k as [| k IH]; intros x H; cbn [halved]; [ assumption | ].
  apply IH. rewrite half_eq. lra.
Qed.

(** [k] halvings divide by more than [k]. *)
Lemma halved_bound (k : nat) :
  forall x, 0 <= x -> halved k x * (qn k + 1) <= x.
Proof.
  induction k as [| k IH]; intros x H; cbn [halved].
  - rewrite qn_0. lra.
  - assert (H2 : 0 <= x / 2) by (rewrite half_eq; lra).
    pose proof (half_eq x) as Hx.
    pose proof (IH _ H2) as B.
    pose proof (halved_nonneg k _ H2) as P.
    pose proof (qn_nonneg k) as N.
    assert (M : 0 <= halved k (x / 2) * qn k)
      by (apply Qmult_le_0_compat; assumption).
    rewrite qn_S.
    setoid_replace (halved k (x / 2) * (qn k + 1 + 1))
      with (halved k (x / 2) * qn k + 2 * halved k (x / 2)) by ring.
    setoid_replace (halved k (x / 2) * (qn k + 1))
      with (halved k (x / 2) * qn k + halved k (x / 2)) in B by ring.
    lra.
Qed.

(** The fuel [gtk_rot_ctrl_calc_future_target] is run with is enough. *)
Lemma search_fuel_enough (step limit : Q) :
  0 < limit -> 0 <= step ->
  halved (search_fuel step limit) step <= limit.
Proof.
  intros Hl Hs. unfold search_fuel.
  destruct (Qlt_bool_spec 0 limit) as [_ | C]; [ | contradiction ].
  set (F := Z.to_nat (Qceiling (step / limit))).
  assert (HF : step / limit <= qn F).
  { unfold F, qn.
    apply Qle_trans with (inject_Z (Qceiling (step / limit)));
      [ apply Qle_ceiling | ].
    rewrite <- Zle_Qle. lia. }
  assert (Hstep : step <= limit * qn F).
  { setoid_replace step with (limit * (step / limit))
      by (field; intro Z; rewrite Z in Hl; apply (Qlt_irrefl 0 Hl)).
    apply Qmult_le_l; assumption. }
  pose proof (halved_bound F step Hs) as B.
  pose proof (qn_nonneg F) as N.
  destruct (Qlt_le_dec limit (halved F step)) as [C | C]; [ | assumption ].
  exfalso.
  assert (M : limit * (qn F + 1) < halved F step * (qn F + 1))
    by (apply Qmult_lt_compat_r; lra).
  setoid_replace (limit * (qn F + 1)) with (limit * qn F + limit) in M by ring.
  lra.
Qed.

Section SearchFacts.

Variable predict_calc : sat_t -> Q -> sat_t.
Variables (ctrl : GtkRotCtrl) (pthaz pthel : Q) (flip : bool).
Hypothesis Hflip : flip_enabled ctrl = Some flip.

Lemma search_body_step (s : search_t) :
  exists s', search_body predict_calc ctrl pthaz pthel s = Some s'
             /\ step_size s' = step_size s / 2.
Proof.
  unfold search_body. rewrite Hflip. cbn [bind].
  eexists. split; reflexivity.
Qed.

(** The loop runs until the step has been halved down to the limit. *)
Lemma search_loop_run (fuel : nat) :
  forall s,
    halved fuel (step_size s) <= step_limit ctrl ->
    exists n s',
      (n <= fuel)%nat
      /\ (forall fuel', (n <= fuel')%nat ->
          search_loop predict_calc fuel' ctrl pthaz pthel s = Some s')
      /\ search_iter predict_calc n ctrl pthaz pthel s = Some s'
      /\ step_size s' = halved n (step_size s)
      /\ halved n (step_size s) <= step_limit ctrl
      /\ (forall k, (k < n)%nat -> step_limit ctrl < halved k (step_size s)).
Proof.
  induction fuel as [| fuel IH]; intros s H.
  - exists O, s. cbn [halved] in *.
    assert (E : Qlt_bool (step_limit ctrl) (step_size s) = false)
      by now apply Qlt_bool_false.
    repeat split; try assumption; try lia.
    intros [| f] _; cbn [search_loop]; now rewrite E.
  - case_lt (step_limit ctrl) (step_size s).
    + destruct (search_body_step s) as (s1 & Hb & Hs1).
      cbn [halved] in H. rewrite <- Hs1 in H.
      destruct (IH s1 H) as (n & s' & Hn & Hloop & Hiter & Hstep & Hex & Hrun).
      exists (S n), s'. cbn [halved search_iter]. rewrite Hb, <- Hs1.
      cbn [bind]. repeat split; try assumption; try lia.
      * intros [| f] Hf; [ lia | ]. cbn [search_loop].
        apply Qlt_bool_true in Hlt. rewrite Hlt, Hb. cbn [bind].
        apply Hloop. lia.
      * intros [| k] Hk; cbn [halved]; [ assumption | ].
        rewrite <- Hs1. apply Hrun. lia.
    + exists O, s. cbn [halved].
      assert (E : Qlt_bool (step_limit ctrl) (step_size s) = false)
        by now apply Qlt_bool_false.
      repeat split; try assumption; try lia.
      intros [| f] _; cbn [search_loop]; now rewrite E.
Qed.

End SearchFacts.

Lemma tick_period_eq (ctrl : GtkRotCtrl) :
  tick_period ctrl == delay_ms ctrl * (1 # 86400000)
  /\ step_limit ctrl == delay_ms ctrl * (1 # 345600000).
Proof.
  unfold tick_period, step_limit, secday, Qdiv.
  change (/ 1000) with (1 # 1000). change (/ 86400) with (1 # 86400).
  change (/ 4) with (1 # 4). split; ring.
Qed.

Lemma delay_ms_pos (ctrl : GtkRotCtrl) : (0 < delay ctrl)%N -> 0 < delay_ms ctrl.
Proof.
  intro H. unfold delay_ms. change 0 with (inject_Z 0).
  rewrite <- Zlt_Qlt. lia.
Qed.

Lemma initial_step_cases (ctrl : GtkRotCtrl) :
  (initial_step ctrl == tick_period ctrl
   \/ initial_step ctrl == half_horizon ctrl)
  /\ tick_period ctrl <= initial_step ctrl
  /\ half_horizon ctrl <= initial_step ctrl.
Proof.
  unfold initial_step, half_horizon. fold (tick_period ctrl).
  destruct (pass ctrl) as [p |]; cbv zeta.
  - case_lt ((los p - ctrl_t ctrl) / 2) (tick_period ctrl);
      repeat split; lra.
  - case_lt (1 / 72 / 2) (tick_period ctrl);
      repeat split; lra.
Qed.

(** C6, as the code has it: for every positive tick period the search loop
    exits.  The step starts at the larger of half the horizon (half the time
    to LOS, or half of 20 minutes without a pass) and one whole tick period;
    it is halved by every iteration; the loop runs [n] iterations, where [n]
    is the least number of halvings that brings the step down to a quarter
    of the tick period or below, and [n] is at least 2.  Any fuel from [n]
    on gives the same result, and the function returns the position of the
    last iteration. *)
Theorem search_terminates (predict_calc : sat_t -> Q -> sat_t)
    (ctrl : GtkRotCtrl) (tgt : sat_t) (flip : bool) (pthaz pthel : Q)
    (Hdelay : (0 < delay ctrl)%N)
    (Htgt : target ctrl = Some tgt)
    (Hflip : flip_enabled ctrl = Some flip) :
  (initial_step ctrl == tick_period ctrl
   \/ initial_step ctrl == half_horizon ctrl)
  /\ tick_period ctrl <= initial_step ctrl
  /\ half_horizon ctrl <= initial_step ctrl
  /\ step_limit ctrl == tick_period ctrl / 4
  /\ exists n s,
       (forall fuel, (n <= fuel)%nat ->
          search_loop predict_calc fuel ctrl pthaz pthel (search_start ctrl tgt)
          = Some s)
       /\ search_iter predict_calc n ctrl pthaz pthel (search_start ctrl tgt)
          = Some s
       /\ gtk_rot_ctrl_calc_future_target predict_calc ctrl pthaz pthel
          = Some (az (sat s), el (sat s))
       /\ step_size s = halved n (initial_step ctrl)
       /\ halved n (initial_step ctrl) <= step_limit ctrl
       /\ (forall k, (k < n)%nat -> step_limit ctrl < halved k (initial_step ctrl))
       /\ (2 <= n)%nat.
Proof.
  destruct (initial_step_cases ctrl) as (Hcase & Htick & Hhalf).
  destruct (tick_period_eq ctrl) as (Et & El).
  pose proof (delay_ms_pos ctrl Hdelay) as Hpos.
  assert (Hq : step_limit ctrl == tick_period ctrl / 4).
  { unfold Qdiv. change (/ 4) with (1 # 4). rewrite Et, El. ring. }
  repeat split; try assumption.
  assert (Hlim : 0 < step_limit ctrl) by lra.
  assert (Hinit : 0 <= initial_step ctrl) by lra.
  pose proof (search_fuel_enough _ _ Hlim Hinit) as Hfuel.
  destruct (search_loop_run predict_calc ctrl pthaz pthel flip Hflip
              (search_fuel (initial_step ctrl) (step_limit ctrl))
              (search_start ctrl tgt) Hfuel)
    as (n & s & Hn & Hloop & Hiter & Hstep & Hex & Hrun).
  exists n, s. cbn [search_start step_size] in *.
  repeat split; try assumption.
  - unfold gtk_rot_ctrl_calc_future_target. rewrite Htgt. cbn [bind].
    rewrite (Hloop _ Hn). reflexivity.
  - destruct n as [| [| n]]; [ | | lia ]; exfalso; cbn [halved] in Hex.
    + lra.
    + rewrite half_eq in Hex. lra.
Qed.

(** C6 as stated fails on the first step: for a pass that ends now, with
    one-second ticks, the search starts with a whole tick period, not with
    half of one, and runs two iterations where a start at half a tick period
    would run one. *)
Lemma initial_step_is_whole_tick :
  initial_step ending_ctrl == 1 # 86400
  /\ spec_initial_step ending_ctrl == 1 # 172800
  /\ ~ initial_step ending_ctrl == spec_initial_step ending_ctrl
  /\ step_limit ending_ctrl < halved 1 (initial_step ending_ctrl)
  /\ halved 1 (spec_initial_step ending_ctrl) <= step_limit ending_ctrl.
Proof.
  repeat split; try (vm_compute; reflexivity); vm_compute; discriminate.
Qed.

(** For the 20-minute horizon and one-second ticks the loop runs 12
    iterations. *)
Lemma search_terminates_witness :
  exists s,
    search_iter (sweep_sat 100) 12 sweep_ctrl 100 45
      (search_start sweep_ctrl (mk_sat 100 45 0 0)) = Some s
    /\ gtk_rot_ctrl_calc_future_target (sweep_sat 100) sweep_ctrl 100 45
       = Some (az (sat s), el (sat s)).
Proof.
  assert (Hdelay : (0 < delay sweep_ctrl)%N) by reflexivity.
  destruct (search_terminates (sweep_sat 100) sweep_ctrl (mk_sat 100 45 0 0)
              false 100 45 Hdelay eq_refl eq_refl)
    as (_ & _ & _ & _ & n & s & _ & Hiter & Hres & _ & Hex & Hrun & _).
  exists s. split; [ | exact Hres ].
  assert (Hn : n = 12%nat).
  { destruct (Nat.lt_trichotomy n 12) as [Hl | [He | Hg]]; [ | exact He | ].
    - exfalso.
      do 12 (destruct n as [| n];
             [ vm_compute in Hex; apply Hex; reflexivity | ]).
      lia.
    - exfalso. specialize (Hrun 12%nat Hg). vm_compute in Hrun. discriminate. }
  rewrite <- Hn. exact Hiter.
Defined.

(** C1 fails on the code.  A satellite sweeps one degree of azimuth per
    second at 45 degrees of elevation; the path point is (100, 45), the
    threshold 4.9 degrees, the ticks one second, no pass is cached and the
    pass is not flipped.  The search accepts 4.6875 seconds, where the
    satellite is within the threshold, and probes 4.98046875 seconds last,
    where it is not; the position it returns is the one of the last probe,
    outside the threshold disk. *)
Theorem future_target_outside_threshold :
  exists s trgaz trgel,
    search_iter (sweep_sat 100) 12 sweep_ctrl 100 45
      (search_start sweep_ctrl (mk_sat 100 45 0 0)) = Some s
    /\ gtk_rot_ctrl_calc_future_target (sweep_sat 100) sweep_ctrl 100 45
       = Some (trgaz, trgel)
    /\ trgaz = az (sat s) /\ trgel = el (sat s)
    /\ trgaz == 26875 # 256 /\ trgel == 45
    /\ (forall s0 t, el (sweep_sat 100 s0 t) = 45)
    /\ time_delta s * secday == 75 # 16
    /\ is_within_threshold 100 45
         (az (sweep_sat 100 (sat s) (ctrl_t sweep_ctrl + time_delta s)))
         (el (sweep_sat 100 (sat s) (ctrl_t sweep_ctrl + time_delta s)))
         (threshold sweep_ctrl) = true
    /\ is_within_threshold 100 45 trgaz trgel (threshold sweep_ctrl) = false
    /\ ~ ring_dist2 100 45 trgaz trgel
         < threshold sweep_ctrl * threshold sweep_ctrl.
Proof.
  destruct (search_iter (sweep_sat 100) 12 sweep_ctrl 100 45
              (search_start sweep_ctrl (mk_sat 100 45 0 0)))
    as [s |] eqn:E; [ | vm_compute in E; discriminate E ].
  exists s, (az (sat s)), (el (sat s)).
  vm_compute in E. injection E as <-.
  repeat split; try (vm_compute; reflexivity).
  vm_compute. discriminate.
Qed.

(** The tick never clears the pending flag: it leaves the shared record
    alone, or it sets the flag. *)
Lemma tick_never_consumes (predict_calc : sat_t -> Q -> sat_t)
    (ctrl ctrl' : GtkRotCtrl) (env : tick_env) (out : tick_out) :
  rot_ctrl_timeout_cb predict_calc ctrl env = Some (ctrl', out) ->
  client ctrl' = client ctrl
  \/ (engaged ctrl = true /\ trylock env = true
      /\ new_trg (client ctrl') = true).
Proof.
  intro Hrun.
  destruct (tick_target predict_calc ctrl env)
    as [[[[[ctrl1 a] e] ps] kn] |] eqn:Ht.
  2: { unfold rot_ctrl_timeout_cb in Hrun. rewrite Ht in Hrun. discriminate. }
  destruct (tick_of_target _ _ _ _ _ _ _ _ Ht) as (out' & Hrun').
  rewrite Hrun in Hrun'. injection Hrun' as -> _.
  assert (Hid : set_client ctrl1 (client ctrl1) = ctrl1)
    by (destruct ctrl1; reflexivity).
  rewrite Hid.
  assert (Hsame : engaged ctrl1 = engaged ctrl /\ client ctrl1 = client ctrl).
  { destruct (tick_target_frame _ _ _ _ _ _ _ _ Ht) as [-> | (a' & e' & ->)];
      split; reflexivity. }
  destruct Hsame as (He & Hcl).
  unfold commanded. rewrite He.
  destruct (engaged ctrl); [ destruct (conf ctrl1) | ];
    try destruct (trylock env); auto.
Qed.

(** C9 fails on the code.  The client thread takes its snapshot while
    nothing is pending; the tick then queues the target (120, 30); the
    client reads the position and publishes its own flag, which is still
    FALSE.  The queued target is no longer pending, and no position command
    was sent; three more phases of the client send none either. *)
Theorem queued_target_dropped :
  exists s2 s4 s7,
    run (sweep_sat 100) decimal_strtod race_start (firstn 2 race_events)
    = Some s2
    /\ new_trg (client (sys_ctrl s2)) = true
    /\ azi_out (client (sys_ctrl s2)) == 120
    /\ ele_out (client (sys_ctrl s2)) == 30
    /\ sys_pc s2 = AtCommand
    /\ run (sweep_sat 100) decimal_strtod race_start race_events = Some s4
    /\ new_trg (client (sys_ctrl s4)) = false
    /\ azi_out (client (sys_ctrl s4)) == 120
    /\ sys_sent s4 = []
    /\ run (sweep_sat 100) decimal_strtod s4
         (repeat (ClientPhase position_reply position_reply) 3) = Some s7
    /\ sys_sent s7 = [].
Proof.
  destruct (run (sweep_sat 100) decimal_strtod race_start
              (firstn 2 race_events)) as [s2 |] eqn:E2;
    [ | vm_compute in E2; discriminate E2 ].
  destruct (run (sweep_sat 100) decimal_strtod race_start race_events)
    as [s4 |] eqn:E4; [ | vm_compute in E4; discriminate E4 ].
  destruct (run (sweep_sat 100) decimal_strtod s4
              (repeat (ClientPhase position_reply position_reply) 3))
    as [s7 |] eqn:E7.
  - exists s2, s4, s7.
    vm_compute in E2. injection E2 as <-.
    vm_compute in E4. injection E4 as <-.
    vm_compute in E7. injection E7 as <-.
    repeat split; reflexivity.
  - vm_compute in E4. injection E4 as <-. vm_compute in E7. discriminate E7.
Qed.

(** ** The position read *)

Lemma split_first_nl_spec (s : string) :
  match split_first_nl s with
  | Some (tok, rest) =>
      s = (tok ++ String nl rest)%string
      /\ tok = first_line s /\ rest = after_first_line s
  | None => ~ has_nl s
  end.
Proof.
  induction s as [| c s IH].
  - cbn. intros ([| c tok] & rest & E); discriminate.
  - cbn [split_first_nl first_line]. unfold after_first_line.
    cbn [first_line]. destruct (Ascii.eqb_spec c nl) as [-> | Hc].
    + repeat split.
    + destruct (split_first_nl s) as [[tok rest] |].
      * destruct IH as (E & Et & Er). repeat split.
        -- cbn. now rewrite <- E.
        -- now rewrite Et.
        -- cbn [String.length skip]. exact Er.
      * intros ([| c' tok] & rest & E).
        -- injection E as E _. contradiction.
        -- injection E as _ E. apply IH. now exists tok, rest.
Qed.

Lemma strsplit_from_S (n : nat) (s : string) :
  strsplit_from (S n) s
  = match split_first_nl s with
    | Some (tok, rest) => tok :: strsplit_from n rest
    | None => [s]
    end.
Proof. reflexivity. Qed.

(** C7, as the code has it: [get_pos] reports failure exactly when [send] or
    [recv] returned -1, the reply begins with RPRT (whatever the code after
    it), or the reply holds no newline; the output parameters are then left
    as they were.  In every other case it returns TRUE and yields
    [g_strtod] of the text before the first newline and of the text between
    the first newline and the next (or the end of the reply); [g_strtod] is
    not asked whether the texts are numbers. *)
Theorem get_pos_outcome (g_strtod : string -> Q) (io : sock_io) (az el : Q) :
  let res := get_pos g_strtod io az el in
  (fst (fst res) = false <->
   written io = (-1)%Z \/ received io = None
   \/ exists r, received io = Some r
        /\ (String.prefix "RPRT" r = true \/ ~ has_nl r))
  /\ (fst (fst res) = false -> snd (fst res) = az /\ snd res = el)
  /\ (forall r, fst (fst res) = true -> received io = Some r ->
      snd (fst res) = g_strtod (first_line r)
      /\ snd res = g_strtod (first_line (after_first_line r))).
Proof.
  intro res. subst res. unfold get_pos, rotctld_socket_rw.
  destruct (Z.eqb_spec (written io) (-1)) as [W | W].
  { cbn. repeat split; auto; discriminate. }
  destruct (received io) as [r |].
  2: { cbn. repeat split; auto; discriminate. }
  destruct (String.prefix "RPRT" r) eqn:P.
  { cbn. repeat split; eauto; try discriminate.
    intros _. right. right. exists r. auto. }
  pose proof (split_first_nl_spec r) as Hs.
  unfold g_strsplit_nl. destruct r as [| c r'].
  { cbn. repeat split; auto; try discriminate.
    intros _. right. right. exists EmptyString. split; [ reflexivity | ].
    right. intros ([| c tok] & rest & E); discriminate. }
  change (3 - 1)%nat with 2%nat. rewrite strsplit_from_S.
  destruct (split_first_nl (String c r')) as [[tok rest] |].
  - destruct Hs as (E & Et & Er).
    assert (Hv : exists v1 l, strsplit_from 1 rest = v1 :: l
                              /\ v1 = first_line rest).
    { rewrite strsplit_from_S. pose proof (split_first_nl_spec rest) as Hr.
      destruct (split_first_nl rest) as [[t1 rest'] |].
      - destruct Hr as (_ & Ht1 & _). eauto.
      - exists rest, []. split; [ reflexivity | ].
        clear - Hr. induction rest as [| c rest IH]; [ reflexivity | ].
        cbn. destruct (Ascii.eqb_spec c nl) as [-> | Hc].
        + exfalso. apply Hr. now exists EmptyString, rest.
        + f_equal. apply IH. intros (tok & rest' & E). apply Hr.
          exists (String c tok), rest'. cbn. now rewrite E. }
    destruct Hv as (v1 & l & -> & ->). cbn [fst snd].
    split; [ split | split ].
    + discriminate.
    + intros [H | [H | (r0 & H & [H' | H'])]]; try congruence.
      injection H as <-. exfalso. apply H'. rewrite E. now exists tok, rest.
    + discriminate.
    + intros r0 _ R. injection R as <-. now rewrite Et, Er.
  - cbn [fst snd]. repeat split; auto; try discriminate.
    intros _. right. right. exists (String c r'). auto.
Qed.

Lemma get_pos_outcome_witness :
  get_pos decimal_strtod position_reply 7 8
  = (true, decimal_strtod "10.5", decimal_strtod "20.25").
Proof.
  destruct (get_pos_outcome decimal_strtod position_reply 7 8)
    as (_ & _ & Hval).
  assert (Hok : fst (fst (get_pos decimal_strtod position_reply 7 8)) = true)
    by (vm_compute; reflexivity).
  destruct (Hval _ Hok eq_refl) as (Haz & Hel).
  destruct (get_pos decimal_strtod position_reply 7 8) as [[ok a] e].
  cbn [fst snd] in *. subst ok a e. reflexivity.
Defined.

(** C7 as stated fails on a reply whose two lines are not numbers: the
    position read reports success and yields 0 and 0. *)
Lemma get_pos_accepts_garbled_reply :
  get_pos decimal_strtod garbled_reply 7 8 = (true, 0, 0)
  /\ parse_decimal "abc" = None /\ parse_decimal "def" = None
  /\ received garbled_reply = Some ("abc" ++ String nl "def")%string.
Proof. repeat split; vm_compute; reflexivity. Qed.

(** ** The profiler *)

Lemma profile_scan_fold (ds : list pass_detail_t) :
  profile_scan ds = fold_left profile_step ds profile_init.
Proof.
  unfold profile_scan.
  rewrite (fold_indices profile_step ds (List.length ds) 0 profile_init)
    by lia.
  cbn [skipn]. now rewrite firstn_all.
Qed.

Lemma smooth_list_after (st : profile_t) (azs : list Q) :
  firstAz st = false -> smooth_list st azs = smooth_from (lastaz st) azs.
Proof. intro H. unfold smooth_list. rewrite H. now destruct azs. Qed.

(** The scan keeps the least and the greatest smoothed azimuth, starting
    from the bounds it was given. *)
Lemma profile_fold_env (ds : list pass_detail_t) :
  forall st,
    least_of (env_min (fold_left profile_step ds st)) (env_min st)
      (smooth_list st (map detail_az ds))
    /\ greatest_of (env_max (fold_left profile_step ds st)) (env_max st)
         (smooth_list st (map detail_az ds)).
Proof.
  induction ds as [| d ds IH]; intro st.
  - cbn. unfold least_of, greatest_of.
    repeat split; try apply Qle_refl; try (now left); intros s [].
  - cbn [fold_left map].
    destruct (IH (profile_step st d)) as ((L1 & L2 & L3) & (G1 & G2 & G3)).
    rewrite smooth_list_after in L2, L3, G2, G3 by reflexivity.
    unfold smooth_list. cbn [smooth_from].
    set (s0 := gtk_rot_ctrl_smooth (if firstAz st then detail_az d else lastaz st)
                 (detail_az d)) in *.
    change (lastaz (profile_step st d)) with s0 in *.
    set (m := env_min (fold_left profile_step ds (profile_step st d))) in *.
    set (g := env_max (fold_left profile_step ds (profile_step st d))) in *.
    assert (Hmin : env_min (profile_step st d)
                   = if Qlt_bool s0 (env_min st) then s0 else env_min st)
      by reflexivity.
    assert (Hmax : env_max (profile_step st d)
                   = if Qlt_bool (env_max st) s0 then s0 else env_max st)
      by reflexivity.
    rewrite Hmin in L1, L3. rewrite Hmax in G1, G3.
    split.
    + destruct (Qlt_bool_spec s0 (env_min st)) as [C | C];
        [ | apply Qnot_lt_le in C ].
      * repeat split; [ lra | | ].
        -- intros s [<- | Hs]; [ assumption | now apply L2 ].
        -- right. destruct L3 as [-> | L3]; [ now left | now right ].
      * repeat split; [ assumption | | ].
        -- intros s [<- | Hs]; [ lra | now apply L2 ].
        -- destruct L3 as [-> | L3]; [ now left | right; now right ].
    + destruct (Qlt_bool_spec (env_max st) s0) as [C | C];
        [ | apply Qnot_lt_le in C ].
      * repeat split; [ lra | | ].
        -- intros s [<- | Hs]; [ assumption | now apply G2 ].
        -- right. destruct G3 as [-> | G3]; [ now left | now right ].
      * repeat split; [ assumption | | ].
        -- intros s [<- | Hs]; [ lra | now apply G2 ].
        -- destruct G3 as [-> | G3]; [ now left | right; now right ].
Qed.

Lemma env_down_loop_turn (n : nat) (s : Q) :
  forall e,
    exists k : nat,
      fst (env_down_loop n s e) == fst e - 360 * qn k
      /\ snd (env_down_loop n s e) == snd e - 360 * qn k
      /\ (fst e - s <= 360 * qn n -> fst (env_down_loop n s e) <= s).
Proof.
  induction n as [| n IH]; intro e; cbn [env_down_loop].
  - exists O. rewrite qn_0. repeat split; lra.
  - case_lt s (fst e).
    + destruct (IH (fst e - 360, snd e - 360)) as (k & E1 & E2 & X).
      cbn [fst snd] in *. exists (S k). rewrite !qn_S.
      split; [ lra | split; [ lra | ] ]. intro H. apply X. lra.
    + exists O. rewrite qn_0. repeat split; lra.
Qed.

Lemma env_up_loop_turn (n : nat) (s : Q) :
  forall e,
    exists k : nat,
      fst (env_up_loop n s e) == fst e + 360 * qn k
      /\ snd (env_up_loop n s e) == snd e + 360 * qn k
      /\ (s - snd e <= 360 * qn n -> s <= snd (env_up_loop n s e))
      /\ ((0 < k)%nat -> snd (env_up_loop n s e) - 360 < s).
Proof.
  induction n as [| n IH]; intro e; cbn [env_up_loop].
  - exists O. rewrite qn_0. repeat split; try lra. intro H. exfalso. lia.
  - case_lt (snd e) s.
    + destruct (IH (fst e + 360, snd e + 360)) as (k & E1 & E2 & X & B).
      cbn [fst snd] in *. exists (S k). rewrite !qn_S.
      split; [ lra | split; [ lra | split ] ].
      * intro H. apply X. lra.
      * intros _. destruct k as [| k].
        -- rewrite qn_0 in E2. lra.
        -- apply B. lia.
    + exists O. rewrite qn_0. repeat split; try lra. intro H. exfalso. lia.
Qed.

(** The two shift loops move the envelope by a whole number of turns; its
    upper end is then not below the sample, and the envelope holds the
    sample whenever some whole-turn shift of it does. *)
Lemma env_shift_turns (s : Q) (e : Q * Q) :
  (exists k : Z, fst (env_shift s e) == fst e + 360 * inject_Z k
                 /\ snd (env_shift s e) == snd e + 360 * inject_Z k)
  /\ s <= snd (env_shift s e)
  /\ ((exists j : Z, fst e + 360 * inject_Z j <= s
                     /\ s <= snd e + 360 * inject_Z j) ->
      fst (env_shift s e) <= s).
Proof.
  unfold env_shift.
  destruct (env_down_loop_turn (turns (fst e - s)) s e) as (k1 & D1 & D2 & DX).
  specialize (DX (turns_cover _)).
  set (e1 := env_down_loop (turns (fst e - s)) s e) in *.
  destruct (env_up_loop_turn (turns (s - snd e1)) s e1)
    as (k2 & U1 & U2 & UX & UB).
  specialize (UX (turns_cover _)).
  set (e2 := env_up_loop (turns (s - snd e1)) s e1) in *.
  repeat split.
  - exists (Z.of_nat k2 - Z.of_nat k1)%Z.
    unfold Zminus. rewrite inject_Z_plus, inject_Z_opp.
    fold (qn k1). fold (qn k2). split; lra.
  - assumption.
  - intros (j & J1 & J2). destruct k2 as [| k2].
    + rewrite qn_0 in U1. lra.
    + assert (P : (0 < S k2)%nat) by lia. specialize (UB P).
      assert (Hj : inject_Z (Z.of_nat (S k2) - 1) < inject_Z (j + Z.of_nat k1)).
      { unfold Zminus. rewrite !inject_Z_plus, inject_Z_opp.
        fold (qn k1). fold (qn (S k2)). change (inject_Z 1) with 1. lra. }
      rewrite <- Zlt_Qlt in Hj.
      assert (Hle : inject_Z (Z.of_nat (S k2)) <= inject_Z (j + Z.of_nat k1))
        by (rewrite <- Zle_Qle; lia).
      rewrite inject_Z_plus in Hle. fold (qn k1) in Hle. fold (qn (S k2)) in Hle.
      lra.
Qed.

(** The loop over the candidates keeps the least stretch among those inside
    the limits, provided it is below the stretch it started with. *)
Lemma profile_pick_fold (c : rotor_conf_t) (e : Q * Q) (offs : list Q) :
  forall st,
    let st' := fold_left (profile_pick c e) offs st in
    fst st' <= fst st
    /\ (forall o, In o offs -> inside_limits c e o -> fst st' <= stretch_of e o)
    /\ (st' = st
        \/ (In (snd st') offs /\ inside_limits c e (snd st')
            /\ fst st' = stretch_of e (snd st') /\ fst st' < fst st)).
Proof.
  induction offs as [| o offs IH]; intro st; cbv zeta; cbn [fold_left].
  - split; [ apply Qle_refl | ]. split; [ intros o [] | now left ].
  - destruct (IH (profile_pick c e st o)) as (I1 & I2 & I3).
    set (st' := fold_left (profile_pick c e) offs (profile_pick c e st o)) in *.
    clearbody st'.
    assert (Hpick :
      (inside_limits c e o /\ stretch_of e o < fst st
       /\ profile_pick c e st o = (stretch_of e o, o))
      \/ ((inside_limits c e o -> fst st <= stretch_of e o)
          /\ profile_pick c e st o = st)).
    { unfold profile_pick, inside_limits. fold (stretch_of e o).
      case_lt (minaz c) (fst e + o); [ case_lt (snd e + o) (maxaz c) | ];
        cbn [andb].
      - case_lt (stretch_of e o) (fst st);
          [ left; repeat split; assumption | right; split; auto ].
      - right. split; [ | reflexivity ]. intros (_ & H). lra.
      - right. split; [ | reflexivity ]. intros (H & _). lra. }
    destruct Hpick as [(Hin & Hlt & E0) | (Hout & E0)];
      rewrite E0 in I1, I3; cbn [fst snd] in *.
    + split; [ lra | ]. split.
      * intros o' [<- | Ho] Hin'; [ assumption | now apply I2 ].
      * right. destruct I3 as [E | (J1 & J2 & J3 & J4)].
        -- rewrite E. cbn [fst snd]. repeat split; try apply Hin; try assumption.
           now left.
        -- split; [ now right | ]. split; [ assumption | ].
           split; [ assumption | lra ].
    + split; [ assumption | ]. split.
      * intros o' [<- | Ho] Hin'; [ | now apply I2 ].
        specialize (Hout Hin'). lra.
      * destruct I3 as [E | (J1 & J2 & J3 & J4)]; [ now left | right ].
        split; [ now right | ]. repeat split; try apply J2; assumption.
Qed.

(** C4, as the code has it.  Without a cached pass the offset is 0.  With
    one, the profiler keeps the least and the greatest of the smooth-unwrapped
    azimuths of its detail samples (seeded by the first sample), starting
    from the bounds 10000 and -10000; it shifts this envelope by a whole
    number of turns, down while the sample is below its lower end, then up
    while the sample is above its upper end, so that the upper end is not
    below the sample and the envelope holds the sample whenever a whole-turn
    shift of it does; and it returns, among the offsets -360, 0, 360 whose
    shifted envelope lies strictly inside the rotator limits, one of least
    stretch [max (|low|, |high|)], provided that stretch is below 10000, and
    0 when no candidate inside the limits has a stretch below 10000. *)
Theorem profile_az_choice (ctrl : GtkRotCtrl) (sampleAz : Q) :
  (pass ctrl = None -> gtk_rot_ctrl_profile_az ctrl sampleAz = Some 0)
  /\ forall p c,
       pass ctrl = Some p -> conf ctrl = Some c ->
       let st := profile_scan (details p) in
       let e := profile_envelope p sampleAz in
       least_of (env_min st) 10000 (smooth_unwrap (map detail_az (details p)))
       /\ greatest_of (env_max st) (-10000)
            (smooth_unwrap (map detail_az (details p)))
       /\ (exists k : Z,
             fst e == env_min st + 360 * inject_Z k
             /\ snd e == env_max st + 360 * inject_Z k)
       /\ sampleAz <= snd e
       /\ ((exists j : Z,
              env_min st + 360 * inject_Z j <= sampleAz
              /\ sampleAz <= env_max st + 360 * inject_Z j) ->
           fst e <= sampleAz)
       /\ exists r,
            gtk_rot_ctrl_profile_az ctrl sampleAz = Some r
            /\ ((r = 0
                 /\ forall o, In o offsets -> inside_limits c e o ->
                              10000 <= stretch_of e o)
                \/ (In r offsets /\ inside_limits c e r
                    /\ stretch_of e r < 10000
                    /\ forall o, In o offsets -> inside_limits c e o ->
                                 stretch_of e r <= stretch_of e o)).
Proof.
  split.
  - intro H. unfold gtk_rot_ctrl_profile_az. now rewrite H.
  - intros p c Hp Hc st e.
    destruct (profile_fold_env (details p) profile_init) as (Hl & Hg).
    rewrite <- profile_scan_fold in Hl, Hg. fold st in Hl, Hg.
    assert (Hs : smooth_list profile_init (map detail_az (details p))
                 = smooth_unwrap (map detail_az (details p)))
      by (destruct (map detail_az (details p)); reflexivity).
    rewrite Hs in Hl, Hg.
    destruct (env_shift_turns sampleAz (env_min st, env_max st))
      as (Hk & Hup & Hin).
    fold (profile_envelope p sampleAz) in Hk, Hup, Hin. fold e in Hk, Hup, Hin.
    cbn [fst snd] in Hk, Hin.
    split; [ exact Hl | ]. split; [ exact Hg | ]. split; [ exact Hk | ].
    split; [ exact Hup | ]. split; [ exact Hin | ].
    unfold gtk_rot_ctrl_profile_az. rewrite Hp, Hc. cbn [bind]. fold e.
    destruct (profile_pick_fold c e offsets (10000, 0)) as (P1 & P2 & P3).
    set (res := fold_left (profile_pick c e) offsets (10000, 0)) in *.
    exists (snd res). split; [ reflexivity | ].
    cbn [fst snd] in P1, P3.
    destruct P3 as [E | (J1 & J2 & J3 & J4)].
    + left. rewrite E in *. cbn [fst snd] in *. split; [ reflexivity | ].
      exact P2.
    + right. repeat split; try apply J2; try assumption.
      * rewrite <- J3. assumption.
      * intros o Ho Hi. rewrite <- J3. now apply P2.
Qed.

Lemma profile_az_choice_witness :
  exists r,
    gtk_rot_ctrl_profile_az (profile_ctrl short_pass rotor_450) 30 = Some r
    /\ fst (profile_envelope short_pass 30) <= 30
    /\ 30 <= snd (profile_envelope short_pass 30).
Proof.
  destruct (profile_az_choice (profile_ctrl short_pass rotor_450) 30)
    as (_ & H).
  destruct (H short_pass rotor_450 eq_refl eq_refl)
    as (_ & _ & _ & Hup & Hin & r & Hr & _).
  exists r. split; [ exact Hr | ]. split; [ | exact Hup ].
  apply Hin. exists 0%Z. split; vm_compute; discriminate.
Defined.

(** C4 as stated fails twice.  For a pass from azimuth 10 to 50 and the
    sample 100, no whole-turn shift of the envelope holds the sample; the
    code tests the candidates on [370, 410], which does not straddle 100.
    For a sample at azimuth 20000 and limits far beyond it, every candidate
    lies inside the limits and -360 has the least stretch, yet the code
    returns 0, because no stretch is below 10000. *)
Lemma profile_az_not_as_stated :
  (profile_envelope short_pass 100 = (370, 410)
   /\ ~ fst (profile_envelope short_pass 100) <= 100)
  /\ (gtk_rot_ctrl_profile_az (profile_ctrl far_pass wide_conf) 20000 = Some 0
      /\ inside_limits wide_conf (profile_envelope far_pass 20000) (-360)
      /\ stretch_of (profile_envelope far_pass 20000) (-360)
         < stretch_of (profile_envelope far_pass 20000) 0).
Proof.
  repeat split; try (vm_compute; reflexivity).
  vm_compute. intro H. apply H. reflexivity.
Qed.

(** * Further properties of the controller *)

(** ** Smoothing *)



(** ** The threshold test *)

Lemma Qlt_bool_compat (a a' b b' : Q) :
  a == a' -> b == b' -> Qlt_bool a b = Qlt_bool a' b'.
Proof.
  intros Ha Hb.
  destruct (Qlt_bool_spec a b) as [H | H];
    destruct (Qlt_bool_spec a' b') as [H' | H']; try reflexivity; exfalso.
  - apply H'. rewrite <- Ha, <- Hb. assumption.
  - apply H. rewrite Ha, Hb. assumption.
Qed.

Lemma ring_absdiff_sym (a b : Q) :
  gtk_rot_ctrl_ring_absdiff a b == gtk_rot_ctrl_ring_absdiff b a.
Proof.
  pose proof (fabs_sym a b) as Hsym.
  destruct (ring_absdiff_cases a b) as [[Hab Eab] | [Hab Eab]];
    destruct (ring_absdiff_cases b a) as [[Hba Eba] | [Hba Eba]];
    try lra.
  split_fabs (fabs (a - b) - 360); split_fabs (fabs (b - a) - 360); lra.
Qed.

Lemma ring_absdiff_self (a : Q) : gtk_rot_ctrl_ring_absdiff a a == 0.
Proof.
  destruct (ring_absdiff_cases a a) as [[H E] | [H E]];
    split_fabs (a - a); lra.
Qed.

(** [is_within_threshold] does not depend on the order of the two points
    nor on the sign of the threshold, and a point is within the threshold of
    itself exactly when the threshold is not zero: with a threshold of zero
    nothing is within threshold. *)
Theorem within_threshold_symmetric (az1 el1 az2 el2 threshold : Q) :
  is_within_threshold az1 el1 az2 el2 threshold
  = is_within_threshold az2 el2 az1 el1 threshold
  /\ is_within_threshold az1 el1 az2 el2 (- threshold)
     = is_within_threshold az1 el1 az2 el2 threshold
  /\ (is_within_threshold az1 el1 az1 el1 threshold = true
      <-> ~ threshold == 0)
  /\ is_within_threshold az1 el1 az2 el2 0 = false.
Proof.
  unfold is_within_threshold. cbv zeta.
  split; [ | split; [ | split ] ].
  - apply Qlt_bool_compat; [ | reflexivity ].
    rewrite (ring_absdiff_sym az1 az2), (ring_absdiff_sym el1 el2).
    reflexivity.
  - apply Qlt_bool_compat; [ reflexivity | ring ].
  - assert (E0 : gtk_rot_ctrl_ring_absdiff az1 az1
                   * gtk_rot_ctrl_ring_absdiff az1 az1
                 + gtk_rot_ctrl_ring_absdiff el1 el1
                   * gtk_rot_ctrl_ring_absdiff el1 el1 == 0)
      by (rewrite !ring_absdiff_self; ring).
    rewrite (Qlt_bool_compat _ 0 _ (threshold * threshold) E0 (Qeq_refl _)).
    rewrite Qlt_bool_true. split.
    + intros H Z. rewrite Z in H. apply (Qlt_irrefl 0). lra.
    + intro H. destruct (Qlt_le_dec 0 threshold) as [P | P].
      * apply Qmult_lt_0_compat; assumption.
      * destruct (Qlt_le_dec threshold 0) as [N | N].
        -- setoid_replace (threshold * threshold)
             with ((- threshold) * (- threshold)) by ring.
           apply Qmult_lt_0_compat; lra.
        -- exfalso. apply H. lra.
  - apply Qlt_bool_false.
    pose proof (ring_absdiff_cases az1 az2) as Ha.
    pose proof (ring_absdiff_cases el1 el2) as He.
    setoid_replace (0 * 0) with 0 by ring.
    apply Qle_trans with (0 + 0); [ lra | ].
    apply Qplus_le_compat; apply Qmult_le_0_compat;
      first [ destruct Ha as [[_ E] | [_ E]]; rewrite E; apply fabs_nonneg
            | destruct He as [[_ E] | [_ E]]; rewrite E; apply fabs_nonneg ].
Qed.

Lemma within_threshold_self (a e threshold : Q) :
  ~ threshold == 0 -> is_within_threshold a e a e threshold = true.
Proof.
  intro H. unfold is_within_threshold. cbv zeta.
  assert (E0 : gtk_rot_ctrl_ring_absdiff a a * gtk_rot_ctrl_ring_absdiff a a
               + gtk_rot_ctrl_ring_absdiff e e * gtk_rot_ctrl_ring_absdiff e e
               == 0)
    by (rewrite !ring_absdiff_self; ring).
  rewrite (Qlt_bool_compat _ 0 _ (threshold * threshold) E0 (Qeq_refl _)).
  apply Qlt_bool_true.
  destruct (Qlt_le_dec 0 threshold) as [P | P].
  - apply Qmult_lt_0_compat; assumption.
  - destruct (Qlt_le_dec threshold 0) as [N | N].
    + setoid_replace (threshold * threshold)
        with ((- threshold) * (- threshold)) by ring.
      apply Qmult_lt_0_compat; lra.
    + exfalso. apply H. lra.
Qed.

Lemma within_threshold_symmetric_witness :
  is_within_threshold 10 20 10 20 5 = true.
Proof.
  destruct (within_threshold_symmetric 10 20 350 0 5) as (_ & _ & Hself & _).
  apply Hself. vm_compute. discriminate.
Defined.

(** ** More on the control tick *)

Lemma CLAMP_fix (x low high : Q) :
  low <= x -> x <= high -> CLAMP x low high = x.
Proof.
  intros H1 H2. unfold CLAMP.
  apply Qlt_bool_false in H1, H2. now rewrite H2, H1.
Qed.

Lemma tick_never_consumes_witness :
  exists ctrl',
    option_map fst (rot_ctrl_timeout_cb (sweep_sat 100) manual_ctrl manual_env)
    = Some ctrl'
    /\ (client ctrl' = client manual_ctrl
        \/ (engaged manual_ctrl = true /\ trylock manual_env = true
            /\ new_trg (client ctrl') = true)).
Proof.
  destruct (rot_ctrl_timeout_cb (sweep_sat 100) manual_ctrl manual_env)
    as [[ctrl' out] |] eqn:E; [ | vm_compute in E; discriminate E ].
  exists ctrl'. split; [ reflexivity | ].
  exact (tick_never_consumes (sweep_sat 100) manual_ctrl ctrl' manual_env out E).
Defined.

Lemma commanded_client (ctrl : GtkRotCtrl) (env : tick_env) (c : rotor_conf_t)
    (a e : Q) :
  conf ctrl = Some c -> engaged ctrl = true -> trylock env = true ->
  client (commanded ctrl env a e) = tick_exchange c (client ctrl) a e.
Proof.
  intros Hc He Hl. unfold commanded. now rewrite He, Hc, Hl.
Qed.

(** While tracking, a tick that finds no path point (the target is below the
    horizon and no pass is cached, or the time lies within the cached pass)
    leaves the smoothing memory alone, sets nothing on the knobs, and, when
    the device is engaged and the lock acquired, commands azimuth 0 and
    elevation 0 clamped to the limits. *)
Theorem tick_without_path (predict_calc : sat_t -> Q -> sat_t)
    (ctrl : GtkRotCtrl) (env : tick_env) (tgt : sat_t) (c : rotor_conf_t)
    (a e : Q)
    (Htrack : tracking ctrl = true) (Htgt : target ctrl = Some tgt)
    (Hconf : conf ctrl = Some c)
    (Hpath : gtk_rot_ctrl_get_path ctrl 0 0 = Some (false, a, e)) :
  exists ctrl' out,
    rot_ctrl_timeout_cb predict_calc ctrl env = Some (ctrl', out)
    /\ lastTrgAz ctrl' = lastTrgAz ctrl /\ lastTrgEl ctrl' = lastTrgEl ctrl
    /\ lastTrgSet ctrl' = lastTrgSet ctrl
    /\ knob_set out = None
    /\ (engaged ctrl = true -> trylock env = true ->
        azi_out (client ctrl') = CLAMP 0 (minaz c) (maxaz c)
        /\ ele_out (client ctrl') = CLAMP 0 (minel c) (maxel c)
        /\ new_trg (client ctrl') = true).
Proof.
  assert (Ht : tick_target predict_calc ctrl env
               = Some (ctrl, 0, 0, (0, 0), None)).
  { unfold tick_target. rewrite Htrack, Htgt, Hpath. reflexivity. }
  unfold rot_ctrl_timeout_cb. rewrite Ht. cbn [bind]. rewrite Hconf.
  destruct (engaged ctrl); [ destruct (trylock env) | ];
    do 2 eexists; (split; [ reflexivity | ]); cbn;
    repeat split; try reflexivity; intros; discriminate.
Qed.

(** The first tick of a tracking session: with no target commanded before,
    a threshold that is not zero and a path point, the target of the tick
    is the path point itself, unsmoothed. *)
Lemma tick_seeds (predict_calc : sat_t -> Q -> sat_t)
    (ctrl : GtkRotCtrl) (env : tick_env) (tgt : sat_t) (c : rotor_conf_t)
    (pa pe : Q) :
  tracking ctrl = true -> target ctrl = Some tgt -> conf ctrl = Some c ->
  lastTrgSet ctrl = false -> ~ threshold ctrl == 0 ->
  gtk_rot_ctrl_get_path ctrl 0 0 = Some (true, pa, pe) ->
  exists ctrl' out,
    rot_ctrl_timeout_cb predict_calc ctrl env = Some (ctrl', out)
    /\ lastTrgAz ctrl' = pa /\ lastTrgEl ctrl' = pe
    /\ lastTrgSet ctrl' = true.
Proof.
  intros Htr Htgt Hconf Hset Hth Hpath.
  assert (Hoff : exists off,
             gtk_rot_ctrl_profile_az (set_lastTrg ctrl pa pe) pa = Some off).
  { unfold gtk_rot_ctrl_profile_az. cbn [pass conf set_lastTrg].
    rewrite Hconf. destruct (pass ctrl); eexists; reflexivity. }
  destruct Hoff as (off & Hoff).
  assert (Ht : exists ps kn,
             tick_target predict_calc ctrl env
             = Some (set_lastTrg ctrl pa pe, pa + off, pe, ps, kn)).
  { unfold tick_target. rewrite Htr, Htgt, Hpath.
    cbn [is_some andb negb bind]. unfold gtk_rot_ctrl_smooth_az.
    rewrite Hset, (within_threshold_self pa pe _ Hth).
    cbn [negb bind]. rewrite Hoff. cbn [bind conf set_lastTrg].
    rewrite Hconf. cbn [bind]. do 2 eexists. reflexivity. }
  destruct Ht as (ps & kn & Ht).
  destruct (tick_of_target predict_calc _ _ _ _ _ _ _ Ht) as (out & Hrun).
  do 2 eexists. split; [ exact Hrun | ].
  destruct (commanded_memory
              (set_client (set_lastTrg ctrl pa pe)
                 (client (set_lastTrg ctrl pa pe))) env (pa + off) pe)
    as (Haz & Hel & Hs & _).
  rewrite Haz, Hel, Hs. repeat split.
Qed.

(** Switching tracking on, or selecting a satellite by its catalogue number
    while tracking, resets the smoothing memory: whatever was commanded
    before, the next tick that finds a path point targets that point (the
    threshold not being zero).  For the selection, [ctrl] is the controller
    as the handler of the selector left it. *)
Theorem tracking_restart_targets_path (predict_calc : sat_t -> Q -> sat_t)
    (ctrl : GtkRotCtrl) (env : tick_env) (tgt : sat_t) (c : rotor_conf_t)
    (pa pe : Q) (catnrs : list (option Z)) (catnum : Z)
    (Htgt : target ctrl = Some tgt) (Hconf : conf ctrl = Some c)
    (Hth : ~ threshold ctrl == 0)
    (Hpath : gtk_rot_ctrl_get_path ctrl 0 0 = Some (true, pa, pe)) :
  (exists ctrl' out,
     rot_ctrl_timeout_cb predict_calc (track_toggle_cb ctrl true) env
     = Some (ctrl', out)
     /\ lastTrgAz ctrl' = pa /\ lastTrgEl ctrl' = pe
     /\ lastTrgSet ctrl' = true)
  /\ (tracking ctrl = true ->
      exists ctrl' out,
        rot_ctrl_timeout_cb predict_calc
          (fst (gtk_rot_ctrl_select_sat ctrl catnrs catnum)) env
        = Some (ctrl', out)
        /\ lastTrgAz ctrl' = pa /\ lastTrgEl ctrl' = pe
        /\ lastTrgSet ctrl' = true).
Proof.
  split.
  - apply (tick_seeds predict_calc (track_toggle_cb ctrl true) env tgt c);
      try assumption; reflexivity.
  - intro Htr.
    apply (tick_seeds predict_calc
             (fst (gtk_rot_ctrl_select_sat ctrl catnrs catnum)) env tgt c);
      try assumption; reflexivity.
Qed.

Lemma tracking_restart_targets_path_witness :
  exists ctrl',
    option_map fst
      (rot_ctrl_timeout_cb (sweep_sat 100) (track_toggle_cb sweep_ctrl true)
         manual_env) = Some ctrl'
    /\ lastTrgAz ctrl' = 100 /\ lastTrgEl ctrl' = 45.
Proof.
  assert (Hth : ~ threshold sweep_ctrl == 0) by (vm_compute; discriminate).
  destruct (tracking_restart_targets_path (sweep_sat 100) sweep_ctrl
              manual_env (mk_sat 100 45 0 0) rotor_360 100 45 [] 0%Z
              eq_refl eq_refl Hth eq_refl)
    as ((ctrl' & out & Hrun & Haz & Hel & _) & _).
  exists ctrl'. rewrite Hrun. repeat split; assumption.
Defined.

(** When the sample lies in the shifted envelope and some candidate offset
    passes, the profiled azimuth [sampleAz + offset] lies strictly inside
    the azimuth limits, so the clamp of the tick leaves it as it is. *)
Theorem profiled_target_inside_limits (ctrl : GtkRotCtrl) (p : pass_t)
    (c : rotor_conf_t) (sampleAz r : Q)
    (Hpass : pass ctrl = Some p) (Hconf : conf ctrl = Some c)
    (Hr : gtk_rot_ctrl_profile_az ctrl sampleAz = Some r)
    (Hlow : fst (profile_envelope p sampleAz) <= sampleAz)
    (Hcand : exists o, In o offsets
               /\ inside_limits c (profile_envelope p sampleAz) o
               /\ stretch_of (profile_envelope p sampleAz) o < 10000) :
  minaz c < sampleAz + r /\ sampleAz + r < maxaz c
  /\ CLAMP (sampleAz + r) (minaz c) (maxaz c) = sampleAz + r.
Proof.
  unfold gtk_rot_ctrl_profile_az in Hr. rewrite Hpass, Hconf in Hr.
  cbn [bind] in Hr. injection Hr as Hr.
  set (e := profile_envelope p sampleAz) in *.
  assert (Hup : sampleAz <= snd e).
  { subst e. unfold profile_envelope. apply env_shift_turns. }
  destruct (profile_pick_fold c e offsets (10000, 0)) as (P1 & P2 & P3).
  set (res := fold_left (profile_pick c e) offsets (10000, 0)) in *.
  cbn [fst snd] in P1, P3.
  assert (Hin : inside_limits c e r).
  { destruct P3 as [E | (_ & J2 & _)].
    - exfalso. destruct Hcand as (o & Ho & Hi & Hs).
      specialize (P2 o Ho Hi). rewrite E in P2. cbn [fst] in P2. lra.
    - now rewrite <- Hr. }
  destruct Hin as (I1 & I2).
  assert (B1 : minaz c < sampleAz + r) by lra.
  assert (B2 : sampleAz + r < maxaz c) by lra.
  split; [ assumption | ]. split; [ assumption | ].
  apply CLAMP_fix; lra.
Qed.

Lemma profiled_target_inside_limits_witness :
  CLAMP (30 + 0) (minaz rotor_450) (maxaz rotor_450) = 30 + 0.
Proof.
  assert (Hr : gtk_rot_ctrl_profile_az (profile_ctrl short_pass rotor_450) 30
               = Some 0) by (vm_compute; reflexivity).
  assert (Hlow : fst (profile_envelope short_pass 30) <= 30)
    by (vm_compute; discriminate).
  assert (Hcand : exists o, In o offsets
             /\ inside_limits rotor_450 (profile_envelope short_pass 30) o
             /\ stretch_of (profile_envelope short_pass 30) o < 10000).
  { exists 0. split; [ right; now left | ].
    split; [ split | ]; vm_compute; reflexivity. }
  apply (profiled_target_inside_limits (profile_ctrl short_pass rotor_450)
           short_pass rotor_450 30 0 eq_refl eq_refl Hr Hlow Hcand).
Defined.

Lemma tick_without_path_witness :
  exists ctrl',
    option_map fst (rot_ctrl_timeout_cb (sweep_sat 100) hidden_ctrl manual_env)
    = Some ctrl'
    /\ lastTrgAz ctrl' = 80
    /\ azi_out (client ctrl') = CLAMP 0 0 360.
Proof.
  destruct (tick_without_path (sweep_sat 100) hidden_ctrl manual_env
              (mk_sat 100 (-5) 0 0) rotor_360 0 0
              eq_refl eq_refl eq_refl eq_refl)
    as (ctrl' & out & Hrun & Haz & _ & _ & _ & Hcmd).
  exists ctrl'. rewrite Hrun. split; [ reflexivity | ].
  split; [ exact Haz | ].
  destruct (Hcmd eq_refl eq_refl) as (H & _). exact H.
Defined.

(** ** More on the future-target search *)

Lemma search_iter_horizon (predict_calc : sat_t -> Q -> sat_t)
    (ctrl : GtkRotCtrl) (pthaz pthel : Q) (n : nat) :
  forall s s',
    search_iter predict_calc n ctrl pthaz pthel s = Some s' ->
    0 <= step_size s -> 0 <= time_delta s ->
    0 <= step_size s' /\ 0 <= time_delta s'
    /\ time_delta s' + 2 * step_size s' <= time_delta s + 2 * step_size s.
Proof.
  induction n as [| n IH]; intros s s' H Hs Ht; cbn [search_iter] in H.
  - injection H as <-. repeat split; try assumption. apply Qle_refl.
  - destruct (search_body predict_calc ctrl pthaz pthel s) as [s1 |] eqn:E;
      [ cbn [bind] in H | discriminate H ].
    unfold search_body in E.
    destruct (flip_enabled ctrl) as [flip |]; [ | discriminate E ].
    cbn [bind] in E. injection E as <-.
    match type of H with
    | search_iter _ _ _ _ _ ?s1 = _ =>
        destruct (IH s1 s' H) as (I1 & I2 & I3)
    end; cbn [step_size time_delta] in *.
    + rewrite half_eq. lra.
    + match goal with
      | |- 0 <= (if ?b then _ else _) => destruct b; lra
      end.
    + split; [ assumption | ]. split; [ assumption | ].
      rewrite half_eq in I3.
      match type of I3 with
      | context [if ?b then _ else _] => destruct b; lra
      end.
Qed.

(** The search never looks further ahead than twice its first step: the
    accepted time plus twice the current step stays at or below it.  With a
    cached pass and at least two tick periods left before LOS, the time the
    next iteration probes, [t + time_delta + step_size], is therefore before
    LOS by at least the step. *)
Theorem search_stays_before_los (predict_calc : sat_t -> Q -> sat_t)
    (ctrl : GtkRotCtrl) (tgt : sat_t) (pthaz pthel : Q) (n : nat)
    (s : search_t)
    (Hiter : search_iter predict_calc n ctrl pthaz pthel
               (search_start ctrl tgt) = Some s) :
  0 <= time_delta s
  /\ time_delta s + 2 * step_size s <= 2 * initial_step ctrl
  /\ forall p, pass ctrl = Some p ->
               tick_period ctrl <= half_horizon ctrl ->
               ctrl_t ctrl + time_delta s + step_size s
               <= los p - step_size s.
Proof.
  destruct (initial_step_cases ctrl) as (_ & Htick & _).
  destruct (tick_period_eq ctrl) as (Et & _).
  assert (Hd : 0 <= delay_ms ctrl).
  { unfold delay_ms. change 0 with (inject_Z 0). rewrite <- Zle_Qle. lia. }
  assert (H0 : 0 <= initial_step ctrl) by lra.
  destruct (search_iter_horizon predict_calc ctrl pthaz pthel n _ s Hiter)
    as (I1 & I2 & I3); cbn [search_start step_size time_delta] in *;
    try assumption; try apply Qle_refl.
  split; [ assumption | ]. split; [ lra | ].
  intros p Hp Hhalf.
  assert (E : initial_step ctrl == (los p - ctrl_t ctrl) * (1 # 2)).
  { unfold initial_step. unfold half_horizon, tick_period in Hhalf.
    rewrite Hp in *. cbv zeta.
    apply Qlt_bool_false in Hhalf. rewrite Hhalf. apply half_eq. }
  lra.
Qed.

Lemma search_stays_before_los_witness :
  exists s,
    search_iter (sweep_sat 100) 5 long_ctrl 100 45
      (search_start long_ctrl (mk_sat 100 45 0 (1 # 16))) = Some s
    /\ ctrl_t long_ctrl + time_delta s + step_size s <= (1 # 16) - step_size s.
Proof.
  destruct (search_iter (sweep_sat 100) 5 long_ctrl 100 45
              (search_start long_ctrl (mk_sat 100 45 0 (1 # 16))))
    as [s |] eqn:Hs; [ | vm_compute in Hs; discriminate Hs ].
  exists s. split; [ reflexivity | ].
  destruct (search_stays_before_los (sweep_sat 100) long_ctrl
              (mk_sat 100 45 0 (1 # 16)) 100 45 5 s Hs) as (_ & _ & H).
  apply (H (mk_pass 0 (1 # 16) 10 50 []) eq_refl).
  vm_compute. discriminate.
Defined.

(** ** More on flip detection *)

Lemma flip_step_again (range : Q * Q) (st : Q * bool) (x : Q) :
  flip_step range (flip_step range st x) x = flip_step range st x.
Proof.
  destruct st as [last r]. cbn [flip_step].
  set (u := settable_az range x).
  assert (E : Qlt_bool 180 (fabs (u - u)) = false).
  { apply Qlt_bool_false. split_fabs (u - u); lra. }
  now rewrite E.
Qed.

Lemma flip_step_start (range : Q * Q) (x : Q) :
  flip_step range (settable_az range x, false) x
  = (settable_az range x, false).
Proof.
  cbn [flip_step]. set (u := settable_az range x).
  assert (E : Qlt_bool 180 (fabs (u - u)) = false).
  { apply Qlt_bool_false. split_fabs (u - u); lra. }
  now rewrite E.
Qed.

(** For a pass whose first detail sample is at its AOS azimuth and whose
    last detail sample is at its LOS azimuth, [is_flipped_pass] is true
    exactly when two neighbours of the walk over the AOS azimuth, all the
    detail samples and the LOS azimuth, unwrapped, are more than 180
    degrees apart: leaving out the two end samples loses nothing. *)
Theorem is_flipped_pass_full_walk (p : pass_t) (type : rot_az_type_t)
    (azstoppos : Q) (d0 dl : pass_detail_t) (inner : list pass_detail_t)
    (Hdetails : details p = d0 :: inner ++ [dl])
    (Hfirst : detail_az d0 = aos_az p) (Hlast : detail_az dl = los_az p) :
  is_flipped_pass p type azstoppos = true
  <-> consecutive_jump
        (map (settable_az (flip_range type azstoppos))
           (walk_of (aos_az p) (details p) (los_az p))).
Proof.
  set (range := flip_range type azstoppos).
  rewrite is_flipped_pass_walk. fold range.
  assert (Hinner : inner_details (details p) = inner).
  { rewrite Hdetails. unfold inner_details. cbn [tl].
    apply removelast_last. }
  rewrite Hinner.
  assert (HJ : consecutive_jump
                 (map (settable_az range)
                    (walk_of (aos_az p) (details p) (los_az p)))
               <-> snd (fold_left (flip_step range)
                          (map detail_az (details p) ++ [los_az p])
                          (settable_az range (aos_az p), false)) = true).
  { rewrite flip_walk_jump. unfold walk_of. cbn [map].
    split; [ intro H; now right
           | intros [H | H]; [ discriminate | assumption ] ]. }
  rewrite HJ. rewrite Hdetails. cbn [map app fold_left].
  rewrite Hfirst, flip_step_start.
  rewrite map_app. cbn [map]. rewrite Hlast.
  rewrite <- !app_assoc. cbn [app].
  rewrite !fold_left_app. cbn [fold_left].
  rewrite flip_step_again. reflexivity.
Qed.

Lemma is_flipped_pass_full_walk_witness :
  is_flipped_pass north_pass ROT_AZ_TYPE_360 0 = true
  <-> consecutive_jump
        (map (settable_az (flip_range ROT_AZ_TYPE_360 0))
           (walk_of (aos_az north_pass) (details north_pass)
              (los_az north_pass))).
Proof.
  apply (is_flipped_pass_full_walk north_pass ROT_AZ_TYPE_360 0
           (mk_detail 0 350 0) (mk_detail 1 20 0) [mk_detail (1 # 2) 5 40]);
    reflexivity.
Defined.

(** ** The two threads: what reaches the wire *)

(** What a tick may do to the controller: the configuration and the monitor
    flag stay, and the shared record is left alone or receives a clamped
    target with the pending flag set. *)
Lemma tick_effect (predict_calc : sat_t -> Q -> sat_t)
    (ctrl ctrl' : GtkRotCtrl) (env : tick_env) (out : tick_out) :
  rot_ctrl_timeout_cb predict_calc ctrl env = Some (ctrl', out) ->
  conf ctrl' = conf ctrl /\ monitor ctrl' = monitor ctrl
  /\ (client ctrl' = client ctrl
      \/ exists c a e, conf ctrl = Some c
            /\ client ctrl' = tick_exchange c (client ctrl) a e).
Proof.
  intro Hrun.
  destruct (tick_target predict_calc ctrl env)
    as [[[[[ctrl1 a] e] ps] kn] |] eqn:Ht.
  2: { unfold rot_ctrl_timeout_cb in Hrun. rewrite Ht in Hrun. discriminate. }
  destruct (tick_of_target _ _ _ _ _ _ _ _ Ht) as (out' & Hrun').
  rewrite Hrun in Hrun'. injection Hrun' as -> _.
  assert (Hid : set_client ctrl1 (client ctrl1) = ctrl1)
    by (destruct ctrl1; reflexivity).
  rewrite Hid.
  assert (Hsame : engaged ctrl1 = engaged ctrl /\ conf ctrl1 = conf ctrl
                  /\ client ctrl1 = client ctrl
                  /\ monitor ctrl1 = monitor ctrl).
  { destruct (tick_target_frame _ _ _ _ _ _ _ _ Ht) as [-> | (a' & e' & ->)];
      repeat split; reflexivity. }
  destruct Hsame as (He & Hc & Hcl & Hm).
  unfold commanded. rewrite He, Hc.
  destruct (engaged ctrl); [ destruct (conf ctrl) as [c |] eqn:Ec | ];
    try destruct (trylock env); cbn; rewrite ?Hc, ?Hm, ?Hcl, ?Ec;
    repeat split; auto.
  right. exists c, a, e. split; reflexivity.
Qed.

Lemma tick_exchange_in_limits (c : rotor_conf_t) (cl : client_t) (a e : Q) :
  limits_ok c ->
  in_limits c (azi_out (tick_exchange c cl a e))
    (ele_out (tick_exchange c cl a e)).
Proof.
  intros (Haz & Hel). cbn.
  pose proof (CLAMP_range a _ _ Haz). pose proof (CLAMP_range e _ _ Hel).
  unfold in_limits. tauto.
Qed.

Section Wire.

Variable predict_calc : sat_t -> Q -> sat_t.
Variable g_strtod : string -> Q.
Variable c : rotor_conf_t.
Hypothesis Hlimits : limits_ok c.

Lemma wire_safe_step (s s' : system) (e : event) :
  wire_safe c s -> step predict_calc g_strtod s e = Some s' ->
  wire_safe c s'.
Proof.
  intros (Hc & HA & HB & HC & HS) Hstep.
  destruct e as [env | io_set io_get]; cbn [step] in Hstep.
  - destruct (rot_ctrl_timeout_cb predict_calc (sys_ctrl s) env)
      as [[ctrl' out] |] eqn:Et; [ | discriminate Hstep ].
    cbn [bind] in Hstep. injection Hstep as <-.
    destruct (tick_effect _ _ _ _ _ Et) as (Ec & _ & Hcl).
    unfold wire_safe. cbn [sys_ctrl sys_thread sys_pc sys_sent].
    split; [ congruence | ].
    destruct Hcl as [Hcl | (c' & a & e & Ec' & Hcl)]; rewrite Hcl.
    + repeat (split; [ assumption | ]); assumption.
    + assert (c' = c) by congruence. subst c'.
      split; [ intros _; now apply tick_exchange_in_limits | ].
      split; [ intros _ _; reflexivity | ]. split; assumption.
  - destruct (sys_pc s) eqn:Epc.
    + injection Hstep as <-.
      unfold wire_safe. cbn [sys_ctrl sys_thread sys_pc sys_sent].
      split; [ assumption | ]. unfold client_snapshot.
      destruct (new_trg (client (sys_ctrl s))) eqn:En; cbn [t_new_trg t_azi t_ele].
      * split; [ intros _; apply HA; now left | ].
        split; [ discriminate | ]. split; [ | assumption ].
        intros _ _. apply HA. now left.
      * split; [ intros [H | H]; [ discriminate | apply HA; now right ] | ].
        split; [ discriminate | ]. split; [ | assumption ].
        intros _ H. specialize (HB eq_refl H). discriminate.
    + unfold client_command in Hstep.
      destruct (get_pos g_strtod io_get (t_azi (sys_thread s))
                  (t_ele (sys_thread s))) as [[ok azi] ele].
      destruct (t_new_trg (sys_thread s) && negb (monitor (sys_ctrl s)))
        eqn:Esend.
      * apply andb_true_iff in Esend. destruct Esend as (Enew & _).
        destruct (set_pos g_strtod io_set (t_azi (sys_thread s))
                    (t_ele (sys_thread s)));
          injection Hstep as <-; unfold wire_safe;
          cbn [sys_ctrl sys_thread sys_pc sys_sent t_new_trg];
          (split; [ assumption | ]);
          (split; [ intros _; apply HA; now right | ]);
          (split; [ discriminate | ]); (split; [ discriminate | ]);
          intros cmd Hin; apply in_app_or in Hin;
          (destruct Hin as [Hin | [<- | []]];
           [ now apply HS | now apply HC ]).
      * injection Hstep as <-. unfold wire_safe.
        cbn [sys_ctrl sys_thread sys_pc sys_sent t_new_trg].
        split; [ assumption | ].
        split; [ intros [H | H]; apply HA; [ now left | now right ] | ].
        split; [ discriminate | ]. split; [ discriminate | assumption ].
    + injection Hstep as <-. unfold wire_safe.
      cbn [sys_ctrl sys_thread sys_pc sys_sent set_client client conf
           client_publish new_trg azi_out ele_out].
      split; [ assumption | ].
      split; [ intros [H | H]; apply HA; now right | ].
      split; [ intros _ H; exact H | ]. split; [ discriminate | assumption ].
Qed.

Lemma wire_safe_run (es : list event) :
  forall s s',
    wire_safe c s -> run predict_calc g_strtod s es = Some s' ->
    wire_safe c s'.
Proof.
  induction es as [| e es IH]; intros s s' Hs Hrun; cbn [run] in Hrun.
  - now injection Hrun as <-.
  - destruct (step predict_calc g_strtod s e) as [s1 |] eqn:E;
      [ cbn [bind] in Hrun | discriminate Hrun ].
    apply (IH s1 s'); [ | assumption ].
    now apply (wire_safe_step s s1 e).
Qed.

End Wire.

(** From the start of the client thread on, whatever the ticks, the knob
    values, the satellite and the replies of the daemon, and however ticks
    and client phases interleave: every position command the client thread
    sends lies within the azimuth and elevation limits of the configuration
    (limits with [min <= max]), and so does a pending target. *)
Theorem sent_commands_within_limits (predict_calc : sat_t -> Q -> sat_t)
    (g_strtod : string -> Q) (c : rotor_conf_t) (ctrl : GtkRotCtrl)
    (es : list event) (s' : system)
    (Hlimits : limits_ok c) (Hconf : conf ctrl = Some c)
    (Hrun : run predict_calc g_strtod
              (mk_system (set_client ctrl (fst (client_start (client ctrl))))
                 (snd (client_start (client ctrl))) AtSnapshot [])
              es = Some s') :
  (forall cmd, In cmd (sys_sent s') -> in_limits c (fst cmd) (snd cmd))
  /\ (new_trg (client (sys_ctrl s')) = true ->
      in_limits c (azi_out (client (sys_ctrl s')))
        (ele_out (client (sys_ctrl s')))).
Proof.
  assert (H0 : wire_safe c
                 (mk_system (set_client ctrl (fst (client_start (client ctrl))))
                    (snd (client_start (client ctrl))) AtSnapshot [])).
  { unfold wire_safe. cbn. split; [ assumption | ].
    split; [ intros [H | H]; discriminate | ].
    split; [ discriminate | ]. split; [ discriminate | intros cmd [] ]. }
  destruct (wire_safe_run predict_calc g_strtod c Hlimits es _ _ H0 Hrun)
    as (_ & HA & _ & _ & HS).
  split; [ exact HS | ]. intro H. apply HA. now left.
Qed.

Lemma sent_commands_within_limits_witness :
  exists s',
    run (sweep_sat 100) decimal_strtod race_start send_events = Some s'
    /\ sys_sent s' = [(CLAMP 120 0 360, CLAMP 30 0 90)]
    /\ in_limits rotor_360 (CLAMP 120 0 360) (CLAMP 30 0 90).
Proof.
  destruct (run (sweep_sat 100) decimal_strtod race_start send_events)
    as [s' |] eqn:E; [ | vm_compute in E; discriminate E ].
  exists s'. split; [ reflexivity | ].
  assert (Hsent : sys_sent s' = [(CLAMP 120 0 360, CLAMP 30 0 90)]).
  { vm_compute in E. injection E as <-. vm_compute. reflexivity. }
  split; [ exact Hsent | ].
  assert (Hl : limits_ok rotor_360)
    by (split; vm_compute; discriminate).
  destruct (sent_commands_within_limits (sweep_sat 100) decimal_strtod
              rotor_360 manual_ctrl send_events s' Hl eq_refl E)
    as (Hall & _).
  apply (Hall (CLAMP 120 0 360, CLAMP 30 0 90)).
  rewrite Hsent. now left.
Defined.

(** In monitor mode no position command is ever sent: along any sequence
    of ticks and client phases the list of commands sent stays as it was,
    and the monitor flag is not touched. *)
Theorem monitor_never_sends (predict_calc : sat_t -> Q -> sat_t)
    (g_strtod : string -> Q) (es : list event) :
  forall s s',
    monitor (sys_ctrl s) = true ->
    run predict_calc g_strtod s es = Some s' ->
    sys_sent s' = sys_sent s /\ monitor (sys_ctrl s') = true.
Proof.
  induction es as [| e es IH]; intros s s' Hm Hrun; cbn [run] in Hrun.
  - injection Hrun as <-. now split.
  - destruct (step predict_calc g_strtod s e) as [s1 |] eqn:E;
      [ cbn [bind] in Hrun | discriminate Hrun ].
    assert (H1 : sys_sent s1 = sys_sent s /\ monitor (sys_ctrl s1) = true).
    { destruct e as [env | io_set io_get]; cbn [step] in E.
      - destruct (rot_ctrl_timeout_cb predict_calc (sys_ctrl s) env)
          as [[ctrl' out] |] eqn:Et; [ | discriminate E ].
        cbn [bind] in E. injection E as <-.
        destruct (tick_effect _ _ _ _ _ Et) as (_ & Hmon & _).
        cbn. split; [ reflexivity | congruence ].
      - destruct (sys_pc s).
        + injection E as <-. now split.
        + unfold client_command in E. rewrite Hm in E.
          rewrite andb_false_r in E.
          destruct (get_pos g_strtod io_get (t_azi (sys_thread s))
                      (t_ele (sys_thread s))) as [[ok azi] ele].
          injection E as <-. now split.
        + injection E as <-. now split. }
    destruct H1 as (Hs1 & Hm1).
    destruct (IH s1 s' Hm1 Hrun) as (Hs & Hm').
    split; [ congruence | assumption ].
Qed.

Lemma monitor_never_sends_witness :
  exists s',
    run (sweep_sat 100) decimal_strtod monitor_start send_events = Some s'
    /\ sys_sent s' = [].
Proof.
  destruct (run (sweep_sat 100) decimal_strtod monitor_start send_events)
    as [s' |] eqn:E; [ | vm_compute in E; discriminate E ].
  exists s'. split; [ reflexivity | ].
  apply (monitor_never_sends (sweep_sat 100) decimal_strtod send_events
           monitor_start s' eq_refl E).
Defined.

(** One iteration of the client loop that no tick interrupts.  It never
    touches the commanded position nor the running flag.  A pending target
    is sent as it stands in the shared record (outside monitor mode) and
    stays pending exactly when [set_pos] fails; in monitor mode, or with
    nothing pending, nothing is sent.  The error flag it publishes tells
    whether this iteration failed, whatever the flag was before.  The
    position it publishes is what [get_pos] left in the thread's variables:
    the position read or, when the read failed, the target copied from the
    shared record (the previous position when none was pending). *)
Theorem client_iteration_outcome (g_strtod : string -> Q) (monitor : bool)
    (cl : client_t) (th : thread_t) (io_set io_get : sock_io) :
  let r := client_iteration g_strtod monitor cl th io_set io_get in
  let cl' := fst (fst r) in
  let sent := snd r in
  let got :=
    get_pos g_strtod io_get
      (if new_trg cl then azi_out cl else t_azi th)
      (if new_trg cl then ele_out cl else t_ele th) in
  azi_out cl' = azi_out cl /\ ele_out cl' = ele_out cl
  /\ running cl' = running cl
  /\ azi_in cl' = snd (fst got) /\ ele_in cl' = snd got
  /\ (new_trg cl = true -> monitor = false ->
      sent = Some (azi_out cl, ele_out cl)
      /\ new_trg cl' = negb (set_pos g_strtod io_set (azi_out cl) (ele_out cl))
      /\ (io_error cl' = false <->
          set_pos g_strtod io_set (azi_out cl) (ele_out cl) = true
          /\ fst (fst got) = true))
  /\ (monitor = true ->
      sent = None /\ new_trg cl' = (new_trg cl || t_new_trg th)
      /\ (io_error cl' = false <-> fst (fst got) = true))
  /\ (new_trg cl = false -> t_new_trg th = false ->
      sent = None /\ new_trg cl' = false
      /\ (io_error cl' = false <-> fst (fst got) = true)).
Proof.
  unfold client_iteration, client_snapshot, client_command.
  destruct (new_trg cl) eqn:En; cbn [t_new_trg t_azi t_ele t_io_error].
  - destruct monitor; cbn [negb andb].
    + destruct (get_pos g_strtod io_get (azi_out cl) (ele_out cl))
        as [[ok a] e]; cbn.
      destruct ok; cbn; repeat split; try reflexivity; try discriminate;
        intros; try discriminate; auto.
    + destruct (set_pos g_strtod io_set (azi_out cl) (ele_out cl));
        destruct (get_pos g_strtod io_get (azi_out cl) (ele_out cl))
          as [[ok a] e]; cbn;
        destruct ok; cbn; repeat split; try reflexivity; try discriminate;
        intros; try discriminate; intuition discriminate.
  - destruct (t_new_trg th) eqn:Et; destruct monitor; cbn [negb andb].
    all: try destruct (set_pos g_strtod io_set (t_azi th) (t_ele th)).
    all: destruct (get_pos g_strtod io_get (t_azi th) (t_ele th))
           as [[ok a] e]; cbn.
    all: destruct ok; cbn; repeat split; try reflexivity; try discriminate;
      intros; try discriminate; intuition discriminate.
Qed.

Lemma client_iteration_outcome_witness :
  snd (client_iteration decimal_strtod false
         (mk_client 0 0 120 30 true false true) (mk_thread 0 0 false false)
         ok_reply position_reply) = Some (120, 30)
  /\ new_trg (fst (fst (client_iteration decimal_strtod false
                          (mk_client 0 0 120 30 true false true)
                          (mk_thread 0 0 false false)
                          ok_reply position_reply))) = false.
Proof.
  destruct (client_iteration_outcome decimal_strtod false
              (mk_client 0 0 120 30 true false true)
              (mk_thread 0 0 false false) ok_reply position_reply)
    as (_ & _ & _ & _ & _ & Hsend & _).
  destruct (Hsend eq_refl eq_refl) as (Hs & Hn & _).
  split; [ exact Hs | ]. rewrite Hn. vm_compute. reflexivity.
Defined.

(** ** The pass tracker *)

Lemma set_flipped_pass_frame (ctrl : GtkRotCtrl) :
  conf (set_flipped_pass ctrl) = conf ctrl
  /\ pass (set_flipped_pass ctrl) = pass ctrl
  /\ target (set_flipped_pass ctrl) = target ctrl
  /\ ctrl_t (set_flipped_pass ctrl) = ctrl_t ctrl
  /\ lastTrgAz (set_flipped_pass ctrl) = lastTrgAz ctrl
  /\ lastTrgEl (set_flipped_pass ctrl) = lastTrgEl ctrl
  /\ lastTrgSet (set_flipped_pass ctrl) = lastTrgSet ctrl
  /\ client (set_flipped_pass ctrl) = client ctrl
  /\ (tracking (set_flipped_pass ctrl) = tracking ctrl
      /\ engaged (set_flipped_pass ctrl) = engaged ctrl
      /\ monitor (set_flipped_pass ctrl) = monitor ctrl
      /\ delay (set_flipped_pass ctrl) = delay ctrl
      /\ threshold (set_flipped_pass ctrl) = threshold ctrl).
Proof.
  unfold set_flipped_pass.
  destruct (conf ctrl) eqn:Ec; destruct (pass ctrl) eqn:Ep; cbn;
    rewrite ?Ec, ?Ep; repeat split; reflexivity.
Qed.

Lemma set_flipped_pass_consistent (ctrl : GtkRotCtrl) :
  flip_consistent (set_flipped_pass ctrl).
Proof.
  unfold flip_consistent, set_flipped_pass. intros c p.
  destruct (conf ctrl) as [c0 |] eqn:Ec; destruct (pass ctrl) as [p0 |] eqn:Ep;
    cbn; rewrite ?Ec, ?Ep; try discriminate.
  intros H1 H2. injection H1 as <-. injection H2 as <-. reflexivity.
Qed.

Section PassTrackerFacts.

Variable get_pass : sat_t -> Q -> Q -> option pass_t.
Variable get_current_pass : sat_t -> Q -> option pass_t.
Variable qth_small_dist : pass_t -> Q.

Lemma update_drift_consistent (ctrl : GtkRotCtrl) (tgt : sat_t) (t : Q) :
  flip_consistent ctrl ->
  flip_consistent (update_drift get_pass qth_small_dist ctrl tgt t).
Proof.
  intro H. unfold update_drift.
  destruct (pass ctrl) as [p |]; [ | assumption ].
  destruct (Qlt_bool 1 (qth_small_dist p)); [ | assumption ].
  destruct (is_some (pass (set_pass ctrl (get_pass tgt t 3)))) eqn:E.
  - apply set_flipped_pass_consistent.
  - intros c p' _ Hp. rewrite Hp in E. discriminate.
Qed.

Lemma update_pass_consistent (ctrl : GtkRotCtrl) (tgt : sat_t) (t : Q) :
  flip_consistent ctrl ->
  flip_consistent (update_pass get_pass get_current_pass ctrl tgt t).
Proof.
  intro H. unfold update_pass.
  destruct (pass ctrl) as [p |]; [ | apply set_flipped_pass_consistent ].
  destruct (Qlt_bool t (aos p) || Qlt_bool (los p) t).
  - destruct (Qle_bool 0 (el tgt)); [ apply set_flipped_pass_consistent | ].
    destruct (Qlt_bool (delay_ms ctrl / secday / 1000 / 4)
                (sat_aos tgt - aos p));
      [ apply set_flipped_pass_consistent | assumption ].
  - destruct (Qlt_bool (el tgt) 0);
      [ apply set_flipped_pass_consistent | assumption ].
Qed.

(** [gtk_rot_ctrl_update] and [sat_selected_cb] keep the flip flag in step
    with the pass: if [ctrl->flipped] is what [is_flipped_pass] says of the
    cached pass under the loaded configuration before the update, it is so
    after it, whichever pass the update caches; after [sat_selected_cb] it
    is so in any case. *)
Theorem update_keeps_flip_consistent (ctrl : GtkRotCtrl) (t : Q)
    (sats : list sat_t) (i : Z) :
  (flip_consistent ctrl ->
   flip_consistent
     (gtk_rot_ctrl_update get_pass get_current_pass qth_small_dist ctrl t))
  /\ forall ctrl',
       sat_selected_cb get_pass get_current_pass ctrl sats i = Some ctrl' ->
       flip_consistent ctrl'.
Proof.
  split.
  - intro H. unfold gtk_rot_ctrl_update.
    assert (Ht : flip_consistent (set_time ctrl t)) by exact H.
    destruct (target (set_time ctrl t)) as [tgt |]; [ | assumption ].
    now apply update_pass_consistent, update_drift_consistent.
  - intros ctrl' H. unfold sat_selected_cb in H.
    destruct (0 <=? i)%Z.
    + destruct (target (set_target ctrl (nth_error sats (Z.to_nat i))));
        [ cbn [bind] in H | discriminate H ].
      injection H as <-. apply set_flipped_pass_consistent.
    + injection H as <-. intros c p _ Hp. discriminate Hp.
Qed.

Lemma update_drift_frame (ctrl : GtkRotCtrl) (tgt : sat_t) (t : Q) :
  let ctrl' := update_drift get_pass qth_small_dist ctrl tgt t in
  conf ctrl' = conf ctrl /\ target ctrl' = target ctrl
  /\ ctrl_t ctrl' = ctrl_t ctrl
  /\ lastTrgAz ctrl' = lastTrgAz ctrl /\ lastTrgEl ctrl' = lastTrgEl ctrl
  /\ lastTrgSet ctrl' = lastTrgSet ctrl /\ client ctrl' = client ctrl
  /\ delay ctrl' = delay ctrl
  /\ (is_some (pass ctrl) = false -> pass ctrl' = None).
Proof.
  unfold update_drift.
  destruct (pass ctrl) as [p |] eqn:Ep;
    [ | repeat split; try reflexivity; intros _; exact Ep ].
  destruct (Qlt_bool 1 (qth_small_dist p)).
  - destruct (is_some (pass (set_pass ctrl (get_pass tgt t 3)))).
    + destruct (set_flipped_pass_frame (set_pass ctrl (get_pass tgt t 3)))
        as (H1 & H2 & H3 & H4 & H5 & H6 & H7 & H8 & _ & _ & _ & H9 & _).
      cbv zeta. rewrite H1, H3, H4, H5, H6, H7, H8, H9.
      repeat split; try reflexivity. discriminate.
    + repeat split; try reflexivity. discriminate.
  - repeat split; try reflexivity. discriminate.
Qed.

Lemma update_pass_frame (ctrl : GtkRotCtrl) (tgt : sat_t) (t : Q) :
  let ctrl' := update_pass get_pass get_current_pass ctrl tgt t in
  conf ctrl' = conf ctrl /\ target ctrl' = target ctrl
  /\ ctrl_t ctrl' = ctrl_t ctrl
  /\ lastTrgAz ctrl' = lastTrgAz ctrl /\ lastTrgEl ctrl' = lastTrgEl ctrl
  /\ client ctrl' = client ctrl
  /\ (lastTrgSet ctrl' = lastTrgSet ctrl \/ lastTrgSet ctrl' = false)
  /\ (is_some (pass ctrl) = false -> lastTrgSet ctrl' = lastTrgSet ctrl).
Proof.
  unfold update_pass.
  destruct (pass ctrl) as [p |].
  - destruct (Qlt_bool t (aos p) || Qlt_bool (los p) t);
      [ destruct (Qle_bool 0 (el tgt));
        [ | destruct (Qlt_bool (delay_ms ctrl / secday / 1000 / 4)
                        (sat_aos tgt - aos p)) ]
      | destruct (Qlt_bool (el tgt) 0) ].
    all: cbv zeta;
      try match goal with
        | |- context [set_flipped_pass ?x] =>
            destruct (set_flipped_pass_frame x)
              as (H1 & _ & H3 & H4 & H5 & H6 & H7 & H8 & _);
            rewrite H1, H3, H4, H5, H6, H7, H8
        end;
      cbn; repeat split; try reflexivity; auto; discriminate.
  - cbv zeta.
    match goal with
    | |- context [set_flipped_pass ?x] =>
        destruct (set_flipped_pass_frame x)
          as (H1 & _ & H3 & H4 & H5 & H6 & H7 & H8 & _);
        rewrite H1, H3, H4, H5, H6, H7, H8
    end.
    cbn. repeat split; try reflexivity. now left.
Qed.

End PassTrackerFacts.

Lemma Qle_bool_0_false (x : Q) : x < 0 -> Qle_bool 0 x = false.
Proof.
  intro H. apply Qlt_bool_true in H. unfold Qlt_bool in H.
  now apply negb_true_iff in H.
Qed.

(** What [gtk_rot_ctrl_update] does to the controller besides caching a
    pass: it stores the time and leaves the configuration, the target, the
    remembered target position and the shared record alone; it may clear
    [lastTrgSet] but never sets it, and it does not clear it when it caches
    a first pass.  Without a target it only stores the time, and so it does
    in the two steady states: the satellite is up and the time lies within
    the cached pass, or the satellite is down, the time is before the AOS of
    the cached pass and the AOS of the target is not later than that of the
    pass by more than a quarter of a tick period (the pass being computed
    for a ground station close enough). *)
Theorem update_frame (get_pass : sat_t -> Q -> Q -> option pass_t)
    (get_current_pass : sat_t -> Q -> option pass_t)
    (qth_small_dist : pass_t -> Q) (ctrl : GtkRotCtrl) (t : Q) :
  let ctrl' :=
    gtk_rot_ctrl_update get_pass get_current_pass qth_small_dist ctrl t in
  ctrl_t ctrl' = t /\ conf ctrl' = conf ctrl /\ target ctrl' = target ctrl
  /\ lastTrgAz ctrl' = lastTrgAz ctrl /\ lastTrgEl ctrl' = lastTrgEl ctrl
  /\ client ctrl' = client ctrl
  /\ (lastTrgSet ctrl' = true -> lastTrgSet ctrl = true)
  /\ (pass ctrl = None -> lastTrgSet ctrl' = lastTrgSet ctrl)
  /\ (target ctrl = None -> ctrl' = set_time ctrl t)
  /\ (forall tgt p,
        target ctrl = Some tgt -> pass ctrl = Some p ->
        qth_small_dist p <= 1 -> aos p <= t -> t <= los p -> 0 <= el tgt ->
        ctrl' = set_time ctrl t)
  /\ (forall tgt p,
        target ctrl = Some tgt -> pass ctrl = Some p ->
        qth_small_dist p <= 1 -> t < aos p -> el tgt < 0 ->
        sat_aos tgt - aos p <= delay_ms ctrl / secday / 1000 / 4 ->
        ctrl' = set_time ctrl t).
Proof.
  intro ctrl'. subst ctrl'. unfold gtk_rot_ctrl_update.
  change (target (set_time ctrl t)) with (target ctrl).
  destruct (target ctrl) as [tgt |] eqn:Etgt.
  - destruct (update_drift_frame get_pass qth_small_dist (set_time ctrl t)
                tgt t) as (D1 & D2 & D3 & D4 & D5 & D6 & D7 & D8 & D9).
    destruct (update_pass_frame get_pass get_current_pass
                (update_drift get_pass qth_small_dist (set_time ctrl t) tgt t)
                tgt t) as (P1 & P2 & P3 & P4 & P5 & P6 & P7 & P8).
    cbv zeta in *.
    split; [ now rewrite P3, D3 | ]. split; [ now rewrite P1, D1 | ].
    split; [ now rewrite P2, D2 | ]. split; [ now rewrite P4, D4 | ].
    split; [ now rewrite P5, D5 | ]. split; [ now rewrite P6, D7 | ].
    split; [ | split; [ | split; [ discriminate | split ] ] ].
    + intro H. destruct P7 as [P7 | P7]; [ | congruence ].
      rewrite P7, D6 in H. exact H.
    + intro Hp.
      assert (Hn : pass (update_drift get_pass qth_small_dist
                           (set_time ctrl t) tgt t) = None).
      { apply D9. cbn [pass set_time]. now rewrite Hp. }
      rewrite P8 by now rewrite Hn. exact D6.
    + intros tgt0 p Ht Hp Hd Ha Hl He. injection Ht as <-.
      unfold update_drift. cbn [pass set_time]. rewrite Hp.
      apply Qlt_bool_false in Hd. rewrite Hd.
      unfold update_pass. cbn [pass set_time]. rewrite Hp.
      apply Qlt_bool_false in Ha, Hl. rewrite Ha, Hl. cbn [orb].
      assert (E : Qlt_bool (el tgt) 0 = false) by now apply Qlt_bool_false.
      now rewrite E.
    + intros tgt0 p Ht Hp Hd Ha He Hs. injection Ht as <-.
      unfold update_drift. cbn [pass set_time]. rewrite Hp.
      apply Qlt_bool_false in Hd. rewrite Hd.
      unfold update_pass. cbn [pass set_time]. rewrite Hp.
      apply Qlt_bool_true in Ha. rewrite Ha. cbn [orb].
      rewrite (Qle_bool_0_false _ He).
      change (delay_ms (set_time ctrl t)) with (delay_ms ctrl).
      apply Qlt_bool_false in Hs. now rewrite Hs.
  - repeat split; try reflexivity; intros; try discriminate; auto.
Qed.

Lemma update_frame_witness :
  gtk_rot_ctrl_update (fun _ _ _ => None) (fun _ _ => None) (fun _ => 0)
    long_ctrl (1 # 32)
  = set_time long_ctrl (1 # 32).
Proof.
  destruct (update_frame (fun _ _ _ => None) (fun _ _ => None) (fun _ => 0)
              long_ctrl (1 # 32))
    as (_ & _ & _ & _ & _ & _ & _ & _ & _ & Hup & _).
  apply (Hup (mk_sat 100 45 0 (1 # 16)) (mk_pass 0 (1 # 16) 10 50 []));
    try reflexivity; vm_compute; discriminate.
Defined.

(** ** The count-down and the selection by catalogue number *)

(** The count-down of [update_count_down] shows the whole seconds of the
    product [delta * 86400] as the machine computes it: when that product is
    not negative and fits a [guint], the hours, the minutes below 60 and
    the seconds below 60 add up to its integer part, whatever the rounding
    of the product is. *)
Theorem count_down_parts_sum (double_mul : Q -> Q -> Q) (delta : Q)
    (Hpos : 0 <= double_mul delta 86400)
    (Hfit : double_mul delta 86400 < inject_Z (2 ^ 32)) :
  let h := fst (fst (count_down_parts double_mul delta)) in
  let m := snd (fst (count_down_parts double_mul delta)) in
  let s := snd (count_down_parts double_mul delta) in
  (3600 * h + 60 * m + s)%Z = Qfloor (double_mul delta 86400)
  /\ (0 <= h)%Z /\ (0 <= m < 60)%Z /\ (0 <= s < 60)%Z.
Proof.
  unfold count_down_parts, guint_of_double. cbn [fst snd].
  set (S := Qfloor (double_mul delta 86400)).
  assert (HS : (0 <= S)%Z).
  { change 0%Z with (Qfloor 0). apply Qfloor_resp_le. lra. }
  pose proof (Z.div_mod S 3600 ltac:(lia)) as E1.
  pose proof (Z.mod_pos_bound S 3600 ltac:(lia)) as B1.
  assert (R : (S - 3600 * (S / 3600) = S mod 3600)%Z) by lia.
  rewrite R. set (r := (S mod 3600)%Z) in *.
  pose proof (Z.div_mod r 60 ltac:(lia)) as E2.
  pose proof (Z.mod_pos_bound r 60 ltac:(lia)) as B2.
  assert (Hh : (0 <= S / 3600)%Z) by (apply Z.div_pos; lia).
  assert (Hm1 : (0 <= r / 60)%Z) by (apply Z.div_pos; lia).
  assert (Hm2 : (r / 60 < 60)%Z) by (apply Z.div_lt_upper_bound; lia).
  repeat split; lia.
Qed.

(** 3/64 of a day is a double and its product with 86400 is exactly 4050:
    the machine's product is the exact one here. *)
Lemma count_down_parts_sum_witness :
  (3600 * fst (fst (count_down_parts Qmult (3 # 64)))
   + 60 * snd (fst (count_down_parts Qmult (3 # 64)))
   + snd (count_down_parts Qmult (3 # 64)) = 4050)%Z
  /\ (snd (count_down_parts Qmult (3 # 64)) < 60)%Z.
Proof.
  assert (Hpos : 0 <= (3 # 64) * 86400) by (vm_compute; discriminate).
  assert (Hfit : (3 # 64) * 86400 < inject_Z (2 ^ 32))
    by (vm_compute; reflexivity).
  destruct (count_down_parts_sum Qmult (3 # 64) Hpos Hfit)
    as (Hsum & _ & _ & Hs).
  split; [ exact Hsum | apply Hs ].
Defined.

Lemma find_seq_first (f : nat -> bool) (n : nat) :
  forall a,
    match find f (seq a n) with
    | Some i =>
        (a <= i < a + n)%nat /\ f i = true
        /\ forall j, (a <= j < i)%nat -> f j = false
    | None => forall j, (a <= j < a + n)%nat -> f j = false
    end.
Proof.
  induction n as [| n IH]; intro a; cbn [seq find].
  - intros j Hj. lia.
  - destruct (f a) eqn:Ea.
    + split; [ lia | ]. split; [ assumption | ]. intros j Hj. lia.
    + specialize (IH (S a)). destruct (find f (seq (S a) n)) as [i |].
      * destruct IH as (Hi & Hf & Hb). split; [ lia | ].
        split; [ assumption | ]. intros j Hj.
        destruct (Nat.eq_dec j a) as [-> | Hne]; [ assumption | ].
        apply Hb. lia.
      * intros j Hj.
        destruct (Nat.eq_dec j a) as [-> | Hne]; [ assumption | ].
        apply IH. lia.
Qed.

(** [gtk_rot_ctrl_select_sat] selects the first satellite of the list whose
    catalogue number is the one asked for, skipping NULL entries, and
    selects nothing when there is none; in both cases it resets the
    smoothing memory and leaves the remembered position as it was. *)
Theorem select_sat_first_match (ctrl : GtkRotCtrl)
    (catnrs : list (option Z)) (catnum : Z) :
  let r := gtk_rot_ctrl_select_sat ctrl catnrs catnum in
  lastTrgSet (fst r) = false
  /\ lastTrgAz (fst r) = lastTrgAz ctrl /\ lastTrgEl (fst r) = lastTrgEl ctrl
  /\ (forall i, snd r = Some i ->
        nth_error catnrs i = Some (Some catnum)
        /\ forall j, (j < i)%nat -> nth_error catnrs j <> Some (Some catnum))
  /\ (snd r = None ->
      forall j, nth_error catnrs j <> Some (Some catnum)).
Proof.
  cbn [gtk_rot_ctrl_select_sat fst snd]. unfold select_index.
  set (f := fun i : nat =>
              match nth_error catnrs i with
              | Some (Some catnr) => (catnr =? catnum)%Z
              | _ => false
              end).
  assert (Hf : forall j, f j = false ->
                         nth_error catnrs j <> Some (Some catnum)).
  { intros j Hj E. unfold f in Hj. rewrite E, Z.eqb_refl in Hj.
    discriminate. }
  pose proof (find_seq_first f (List.length catnrs) 0) as H.
  split; [ reflexivity | ]. split; [ reflexivity | ].
  split; [ reflexivity | ].
  destruct (find f (seq 0 (List.length catnrs))) as [i0 |]; split.
  - intros i Hi. injection Hi as <-. destruct H as (_ & Ht & Hb). split.
    + unfold f in Ht. destruct (nth_error catnrs i0) as [[catnr |] |];
        try discriminate.
      apply Z.eqb_eq in Ht. now subst.
    + intros j Hj. apply Hf, Hb. lia.
  - discriminate.
  - discriminate.
  - intros _ j. destruct (Nat.lt_ge_cases j (List.length catnrs)) as [L | L].
    + apply Hf, H. lia.
    + apply nth_error_None in L. rewrite L. discriminate.
Qed.

Lemma select_sat_first_match_witness :
  snd (gtk_rot_ctrl_select_sat manual_ctrl
         [Some 7%Z; None; Some 25544%Z; Some 25544%Z] 25544)
  = Some 2%nat
  /\ nth_error [Some 7%Z; None; Some 25544%Z; Some 25544%Z] 1
     <> Some (Some 25544%Z).
Proof.
  destruct (select_sat_first_match manual_ctrl
              [Some 7%Z; None; Some 25544%Z; Some 25544%Z] 25544)
    as (_ & _ & _ & Hsome & _).
  assert (E : snd (gtk_rot_ctrl_select_sat manual_ctrl
                     [Some 7%Z; None; Some 25544%Z; Some 25544%Z] 25544)
              = Some 2%nat) by (vm_compute; reflexivity).
  split; [ exact E | ].
  destruct (Hsome 2%nat E) as (_ & Hfirst). apply Hfirst. lia.
Defined.

Lemma update_keeps_flip_consistent_witness :
  flip_consistent
    (gtk_rot_ctrl_update (fun _ _ _ => None) (fun _ _ => Some north_pass)
       (fun _ => 0) long_ctrl (1 # 8)).
Proof.
  assert (H : flip_consistent long_ctrl).
  { intros c p Hc Hp. injection Hc as <-. injection Hp as <-.
    vm_compute. reflexivity. }
  destruct (update_keeps_flip_consistent (fun _ _ _ => None)
              (fun _ _ => Some north_pass) (fun _ => 0) long_ctrl (1 # 8)
              [] 0%Z) as (Hup & _).
  exact (Hup H).
Defined.
